(** * Tower defense game: the simulation core of [TowerDefenseGame.tsx]

    A shallow embedding of [src/components/TowerDefenseGame.tsx] (the
    TypeScript component) and, in [Module Legacy], of the cooldown code of
    the older [components/TowerDefenseGame.js].

    Conventions of the embedding.
    - A JavaScript [number] that only ever holds an integer (gold, lives,
      costs, [Date.now()] milliseconds, [attackSpeed], [lastShot]) is a [Z];
      all these stay far below 2^53, where binary64 arithmetic on integers
      is exact.
    - The other numbers (coordinates, health, damage, resistances, progress,
      the speed multiplier, accuracy, random draws) are exact rationals [Q];
      rounding of binary64 is abstracted away, and section [Binary64] checks
      with the kernel's floats that the registry's damage values come out
      exact in binary64 as well.
    - [Math.hypot], [Math.random] and [Date.now] are the environment:
      [hypot] is a field of the class [Math], the random draws of one tick
      are a function [rand : nat -> Q] (the k-th call returns [rand k]) and
      the clock reading of a tick is an argument [now : Z].
    - An object used as a dictionary is a [gmap string _]; only own keys are
      modelled. Reading a property of [undefined] throws a [TypeError]: such
      a computation is [None].
    - Arrays of mutable objects are lists; mutating the i-th object is
      [<[i := _]>]. *)

From Stdlib Require Import ZArith QArith Lia Lqa Floats.PrimFloat.
From stdpp Require Import gmap strings list fin_maps.

Set Default Proof Using "Type".

(** ** Numbers *)

(** [a < b] and [a >= b] on the rational model of JavaScript numbers. *)
Definition Qltb (a b : Q) : bool := negb (Qle_bool b a).
Definition Qgeb (a b : Q) : bool := Qle_bool b a.

(** The part of the JavaScript [Math] object the game calls. *)
Class Math := { hypot : Q → Q → Q }.

(** ** Configuration registry *)

(** [interface TowerType]; the display [name] table is left out. *)
Record TowerType := mkTowerType {
  cost : Z;
  damage : Q;
  range : Q;
  color : string;
  accuracy : Q;
  attackSpeed : Z;
  element : string
}.

Definition basic : TowerType :=
  mkTowerType 50 10 100 "blue" 0.8 1000 "fire".
Definition sniper : TowerType :=
  mkTowerType 100 30 200 "purple" 0.95 1500 "ice".
Definition splash : TowerType :=
  mkTowerType 150 20 80 "green" 0.7 1200 "electric".

Definition towerTypes : gmap string TowerType :=
  <["basic" := basic]> (<["sniper" := sniper]> (<["splash" := splash]> ∅)).

(** [colorConfig[isDarkMode ? 'dark' : 'light'].projectile] *)
Definition projectileColor (isDarkMode : bool) : string :=
  if isDarkMode then "#ffffff" else "black".

(** ** Game object classes *)

Module Tower.
Record t := mk { x : Q; y : Q; type : string; lastShot : Z }.

Definition constructor (x y : Q) (type : string) : t := mk x y type 0.

(** [towerTypes[this.type].attackSpeed] throws for an unregistered type. *)
Definition canShoot (currentTime : Z) (this : t) : option bool :=
  ty ← towerTypes !! type this;
  Some (attackSpeed ty <? currentTime - lastShot this)%Z.

Definition shoot (currentTime : Z) (this : t) : t :=
  mk (x this) (y this) (type this) currentTime.
End Tower.

Module Enemy.
Record t := mk {
  x : Q;
  y : Q;
  health : Q;
  maxHealth : Q;
  progress : Q;
  resistances : gmap string Q
}.

Definition constructor (x y health : Q) (resistances : gmap string Q) : t :=
  mk x y health health 0 resistances.

Definition isAlive (this : t) : bool := Qltb 0 (health this).

Definition update (gameSpeed : Q) (this : t) : t :=
  let progress' := (progress this + 1 * gameSpeed)%Q in
  mk (progress' * 4)%Q (y this) (health this) (maxHealth this) progress'
     (resistances this).

Definition reachedEnd (this : t) : bool := Qgeb (progress this) 200.

(** [this.resistances[element] || 0] *)
Definition resistance (element : string) (this : t) : Q :=
  default 0%Q (resistances this !! element).

Definition takeDamage (damage : Q) (element : string) (this : t) : t :=
  let effectiveDamage := (damage * (1 - resistance element this))%Q in
  mk (x this) (y this) (health this - effectiveDamage)%Q (maxHealth this)
     (progress this) (resistances this).
End Enemy.

Module Projectile.
Record t := mk {
  x : Q;
  y : Q;
  targetX : Q;
  targetY : Q;
  damage : Q;
  color : string;
  element : string
}.

Section methods.
Context `{Math}.

(** Returns the moved projectile and whether it still exists. *)
Definition update (gameSpeed : Q) (this : t) : t * bool :=
  let dx := (targetX this - x this)%Q in
  let dy := (targetY this - y this)%Q in
  let distance := hypot dx dy in
  if Qltb distance 5 then (this, false)
  else
    (mk (x this + dx / distance * 5 * gameSpeed)%Q
        (y this + dy / distance * 5 * gameSpeed)%Q
        (targetX this) (targetY this) (damage this) (color this)
        (element this),
     true).
End methods.
End Projectile.

(** ** Component state *)

(** The [useState] values the simulation reads ([gold], [lives],
    [gameSpeed], [placingTower], [isDarkMode]), the [useRef] collections
    ([towersRef], [enemiesRef], [projectilesRef]), whether an animation
    frame is requested ([animationFrameId]), and how many times
    [alert('Game Over!')] was shown. *)
Record World := mkWorld {
  gold : Z;
  lives : Z;
  gameSpeed : Q;
  placingTower : option string;
  isDarkMode : bool;
  towers : list Tower.t;
  enemies : list Enemy.t;
  projectiles : list Projectile.t;
  frameRequested : bool;
  alerts : nat
}.

(** [useState] initial values and empty refs; the effect of the first render
    has requested the first frame. *)
Definition initialWorld : World :=
  mkWorld 200 20 1 None false [] [] [] true 0.

(** A string is truthy when it is not empty; [null] is falsy. *)
Definition truthy (s : option string) : option string :=
  match s with
  | Some k => if decide (k = "") then None else Some k
  | None => None
  end.

(** ** Commands *)

(** [setGold(f)], [setPlacingTower(k)], [setGameSpeed(s)] and
    [towersRef.current.push(tower)]. *)
Definition setGold (f : Z → Z) (w : World) : World :=
  mkWorld (f (gold w)) (lives w) (gameSpeed w) (placingTower w) (isDarkMode w)
    (towers w) (enemies w) (projectiles w) (frameRequested w) (alerts w).

Definition setPlacingTower (k : option string) (w : World) : World :=
  mkWorld (gold w) (lives w) (gameSpeed w) k (isDarkMode w) (towers w)
    (enemies w) (projectiles w) (frameRequested w) (alerts w).

Definition setGameSpeed (s : Q) (w : World) : World :=
  mkWorld (gold w) (lives w) s (placingTower w) (isDarkMode w) (towers w)
    (enemies w) (projectiles w) (frameRequested w) (alerts w).

Definition pushTower (tower : Tower.t) (w : World) : World :=
  mkWorld (gold w) (lives w) (gameSpeed w) (placingTower w) (isDarkMode w)
    (towers w ++ [tower]) (enemies w) (projectiles w) (frameRequested w)
    (alerts w).

(** [gold] in the test is the value of the render the handler belongs to,
    which is the current state when the handler runs. *)
Definition addTower (x y : Q) (type : string) (w : World) : option World :=
  ty ← towerTypes !! type;
  let towerCost := cost ty in
  let w' :=
    if (towerCost <=? gold w)%Z
    then setGold (λ prev, prev - towerCost)%Z
           (pushTower (Tower.constructor x y type) w)
    else w in
  Some (setPlacingTower None w').

Definition spawnResistances : gmap string Q :=
  <["fire" := 0.2%Q]> (<["ice" := 0.0%Q]> (<["electric" := 0.1%Q]> ∅)).

Definition spawnEnemy (w : World) : World :=
  mkWorld (gold w) (lives w) (gameSpeed w) (placingTower w) (isDarkMode w)
    (towers w)
    (enemies w ++ [Enemy.constructor 0 200 300 spawnResistances])
    (projectiles w) (frameRequested w) (alerts w).

(** [x], [y] are the click coordinates relative to the canvas, which is
    taken to be mounted. *)
Definition handleCanvasClick (x y : Q) (w : World) : option World :=
  match truthy (placingTower w) with
  | Some type => addTower x y type w
  | None => Some w
  end.

(** ** The game loop *)

Section loop.
Context `{Math}.

Definition inRange (ty : TowerType) (tower : Tower.t) (enemy : Enemy.t) : bool :=
  Qltb (hypot (Enemy.x enemy - Tower.x tower) (Enemy.y enemy - Tower.y tower))
       (range ty).

(** The callback of [enemiesRef.current.find] in the tower loop. *)
Definition targetable (ty : TowerType) (tower : Tower.t) (enemy : Enemy.t) : bool :=
  inRange ty tower enemy && Enemy.isAlive enemy.

(** [find] calls its callback, which reads [towerTypes[tower.type].range],
    only when there is an enemy to test. *)
Definition nearbyEnemy (tower : Tower.t) (es : list Enemy.t) :
    option (option (nat * Enemy.t)) :=
  match es with
  | [] => Some None
  | _ :: _ =>
      ty ← towerTypes !! Tower.type tower;
      Some (list_find (λ e, Is_true (targetable ty tower e)) es)
  end.

(** [new Projectile(tower.x, tower.y, nearbyEnemy.x, nearbyEnemy.y, damage,
    color, element)]: the projectile a tower of type [ty] aims at
    [target]. *)
Definition shot (ty : TowerType) (dark : bool) (tower : Tower.t)
    (target : Enemy.t) : Projectile.t :=
  Projectile.mk (Tower.x tower) (Tower.y tower) (Enemy.x target)
    (Enemy.y target) (damage ty) (projectileColor dark) (element ty).

(** The body of [towersRef.current.forEach] for one tower: the tower after
    the tick, the projectiles it pushed, and the number of [Math.random]
    calls made so far in the tick ([k] before, the result after). *)
Definition towerAttack (now : Z) (rand : nat → Q) (dark : bool)
    (es : list Enemy.t) (tower : Tower.t) (k : nat) :
    option (Tower.t * list Projectile.t * nat) :=
  found ← nearbyEnemy tower es;
  match found with
  | None => Some (tower, [], k)
  | Some (_, target) =>
      ready ← Tower.canShoot now tower;
      if ready : bool then
        ty ← towerTypes !! Tower.type tower;
        let fired :=
          if Qltb (rand k) (accuracy ty)
          then [shot ty dark tower target] else [] in
        Some (Tower.shoot now tower, fired, S k)
      else Some (tower, [], k)
  end.

Fixpoint towersAttack (now : Z) (rand : nat → Q) (dark : bool)
    (es : list Enemy.t) (ts : list Tower.t) (k : nat) :
    option (list Tower.t * list Projectile.t * nat) :=
  match ts with
  | [] => Some ([], [], k)
  | tower :: rest =>
      '(tower', fired, k') ← towerAttack now rand dark es tower k;
      '(rest', more, k'') ← towersAttack now rand dark es rest k';
      Some (tower' :: rest', fired ++ more, k'')
  end.

(** The callback of [enemiesRef.current.find] for an arrived projectile. *)
Definition hittable (p : Projectile.t) (enemy : Enemy.t) : bool :=
  Qltb (hypot (Enemy.x enemy - Projectile.targetX p)
              (Enemy.y enemy - Projectile.targetY p)) 20
  && Enemy.isAlive enemy.

(** What an arrived projectile does to the enemy array. *)
Definition impact (p : Projectile.t) (es : list Enemy.t) : list Enemy.t :=
  match list_find (λ e, Is_true (hittable p e)) es with
  | Some (i, hitEnemy) =>
      <[i := Enemy.takeDamage (Projectile.damage p) (Projectile.element p)
               hitEnemy]> es
  | None => es
  end.

(** [projectilesRef.current.filter(...)]: the projectiles that remain and
    the enemy array after the impacts, in iteration order. *)
Fixpoint updateProjectiles (gameSpeed : Q) (ps : list Projectile.t)
    (es : list Enemy.t) : list Projectile.t * list Enemy.t :=
  match ps with
  | [] => ([], es)
  | p :: rest =>
      let '(p', exists_) := Projectile.update gameSpeed p in
      let es' := if exists_ then es else impact p' es in
      let '(kept, es'') := updateProjectiles gameSpeed rest es' in
      (if exists_ then p' :: kept else kept, es'')
  end.

(** Drawing is a collaborator; the model keeps only that it reads
    [towerTypes[tower.type].color] for every tower and
    [towerTypes[placingTower].color] in placement mode, which throws for an
    unregistered key. *)
Definition render (placing : option string) (ts : list Tower.t) : option unit :=
  _ ← mapM (λ tower, color <$> towerTypes !! Tower.type tower) ts;
  match truthy placing with
  | Some k => _ ← towerTypes !! k; Some ()
  | None => Some ()
  end.

(** The filter callback of the removal step. *)
Definition survives (enemy : Enemy.t) : bool :=
  Enemy.isAlive enemy && negb (Enemy.reachedEnd enemy).

(** State of the entity collections when the removal step starts:
    towers after the attack loop, enemies after movement and impacts,
    projectiles after [filter]. *)
Definition combat (now : Z) (rand : nat → Q) (w : World) :
    option (list Tower.t * list Enemy.t * list Projectile.t) :=
  let moved := Enemy.update (gameSpeed w) <$> enemies w in
  '(ts, fired, _) ← towersAttack now rand (isDarkMode w) moved (towers w) 0;
  let '(ps, es) := updateProjectiles (gameSpeed w) (projectiles w ++ fired) moved in
  _ ← render (placingTower w) ts;
  Some (ts, es, ps).

(** One run of [gameLoop]. [lives] in the final test is the value the
    closure captured, the one at the start of the tick: [setLives] does not
    change it. *)
Definition gameLoop (now : Z) (rand : nat → Q) (w : World) : option World :=
  '(ts, es, ps) ← combat now rand w;
  let survivingEnemies := filter (λ e, Is_true (survives e)) es in
  let defeatedEnemies :=
    (Z.of_nat (length es) - Z.of_nat (length survivingEnemies))%Z in
  let paid := (0 <? defeatedEnemies)%Z in
  let lives' := if paid then (lives w - defeatedEnemies)%Z else lives w in
  let gold' := if paid then (gold w + defeatedEnemies * 10)%Z else gold w in
  let over := (lives w <=? 0)%Z in
  Some (mkWorld gold' lives' (gameSpeed w) (placingTower w) (isDarkMode w)
          ts survivingEnemies ps
          (negb over) (if over then S (alerts w) else alerts w)).
End loop.

(** ** Scheduling *)

(** [useEffect(..., [gold, lives, gameSpeed, language, placingTower,
    mousePosition, t, isDarkMode])]: when a dependency changed, the cleanup
    cancels the requested frame and the body requests one for the
    [gameLoop] of the new render. *)
Definition effect (w : World) : World :=
  mkWorld (gold w) (lives w) (gameSpeed w) (placingTower w) (isDarkMode w)
    (towers w) (enemies w) (projectiles w) true (alerts w).

Definition sameDeps (w w' : World) : bool :=
  (gold w =? gold w')%Z && (lives w =? lives w')%Z
  && Qeq_bool (gameSpeed w) (gameSpeed w')
  && bool_decide (placingTower w = placingTower w')
  && bool_decide (isDarkMode w = isDarkMode w').

(** The render that follows a handler or a frame. *)
Definition commit (w w' : World) : World :=
  if sameDeps w w' then w' else effect w'.

(** What can happen to the component: the browser runs the requested frame,
    or the player uses the canvas and the buttons. A mouse move stores a new
    [mousePosition] object, so it always re-runs the effect. *)
Inductive Event :=
  | Frame (now : Z) (rand : nat → Q)
  | Click (x y : Q)
  | MouseMove
  | SpawnEnemy
  | PlaceTower (k : string)
  | Cancel
  | Speed (s : Q).

Section session.
Context `{Math}.

Definition step (ev : Event) (w : World) : option World :=
  match ev with
  | Frame now rand =>
      if frameRequested w then commit w <$> gameLoop now rand w else Some w
  | Click x y => commit w <$> handleCanvasClick x y w
  | MouseMove => Some (effect w)
  | SpawnEnemy => Some (spawnEnemy w)
  | PlaceTower k =>
      (* one button per registry entry, disabled when [gold < cost] *)
      match towerTypes !! k with
      | Some ty =>
          if (gold w <? cost ty)%Z then Some w
          else Some (commit w (setPlacingTower (Some k) w))
      | None => Some w
      end
  | Cancel => Some (commit w (setPlacingTower None w))
  | Speed s => Some (commit w (setGameSpeed s w))
  end.

Fixpoint run (evs : list Event) (w : World) : option World :=
  match evs with
  | [] => Some w
  | ev :: rest => w' ← step ev w; run rest w'
  end.

(** One tick as a single tower sees it: the clock reading, the speed
    multiplier and the enemy array before movement, the theme and the
    random draw. *)
Record Tick := mkTick {
  tickNow : Z;
  tickSpeed : Q;
  tickEnemies : list Enemy.t;
  tickDark : bool;
  tickDraw : Q
}.

(** The clock readings at which [tower] pushed a projectile during the
    given ticks, oldest first. *)
Fixpoint firingTimes (tower : Tower.t) (ticks : list Tick) : option (list Z) :=
  match ticks with
  | [] => Some []
  | tk :: rest =>
      '(tower', fired, _) ←
        towerAttack (tickNow tk) (λ _, tickDraw tk) (tickDark tk)
          (Enemy.update (tickSpeed tk) <$> tickEnemies tk) tower 0;
      times ← firingTimes tower' rest;
      Some (if fired is [] then times else tickNow tk :: times)
  end.

(** The projectiles each tower pushes in one run of the tower loop, tower by
    tower: [towersAttack] pushes their concatenation. *)
Fixpoint volleys (now : Z) (rand : nat → Q) (dark : bool)
    (es : list Enemy.t) (ts : list Tower.t) (k : nat) :
    option (list (list Projectile.t)) :=
  match ts with
  | [] => Some []
  | tower :: rest =>
      '(_, fired, k') ← towerAttack now rand dark es tower k;
      vs ← volleys now rand dark es rest k';
      Some (fired :: vs)
  end.

(** [[now]] when the event is a frame that runs and in which the tower at
    index [i] pushes a projectile, [[]] otherwise. *)
Definition stamps (i : nat) (ev : Event) (w : World) : option (list Z) :=
  match ev with
  | Frame now rand =>
      if frameRequested w then
        vs ← volleys now rand (isDarkMode w)
                (Enemy.update (gameSpeed w) <$> enemies w) (towers w) 0;
        Some (if vs !! i is Some (_ :: _) then [now] else [])
      else Some []
  | _ => Some []
  end.

(** The clock readings at which the tower at index [i] of the tower array
    pushed a projectile during a session, oldest first. *)
Fixpoint shotTimes (i : nat) (evs : list Event) (w : World) : option (list Z) :=
  match evs with
  | [] => Some []
  | ev :: rest =>
      stamp ← stamps i ev w;
      w' ← step ev w;
      times ← shotTimes i rest w';
      Some (stamp ++ times)
  end.
End session.

(** ** A computable [Math.hypot]

    Exact whenever [dx² + dy²] is the square of a rational, and rounded down
    to a multiple of [10^-6 / den] otherwise. *)
Definition hypotDown (dx dy : Q) : Q :=
  let s := Qred (dx * dx + dy * dy) in
  Z.sqrt (Qnum s * Z.pos (Qden s) * 10 ^ 12) # (Qden s * 10 ^ 6).

Definition mathDown : Math := {| hypot := hypotDown |}.

(** ** The older component, [components/TowerDefenseGame.js]

    Its [Tower], [Enemy] and [Projectile] have no element and no per-type
    attack speed; the cooldown is [1000 / gameSpeed] milliseconds. *)
Module Legacy.
Record TowerType := mkTowerType {
  cost : Z;
  damage : Q;
  range : Q;
  color : string;
  accuracy : Q
}.

Definition towerTypes : gmap string TowerType :=
  <["basic" := mkTowerType 50 10 100 "blue" 0.8]>
    (<["sniper" := mkTowerType 100 30 200 "purple" 0.9]>
       (<["splash" := mkTowerType 150 20 80 "green" 0.7]> ∅)).

Record Tower := mkTower { x : Q; y : Q; type : string; lastShot : Z }.

Definition canShoot (currentTime : Z) (gameSpeed : Q) (this : Tower) : bool :=
  Qltb (1000 / gameSpeed) (inject_Z (currentTime - lastShot this)).

Definition shoot (currentTime : Z) (this : Tower) : Tower :=
  mkTower (x this) (y this) (type this) currentTime.

Record Enemy := mkEnemy {
  ex : Q; ey : Q; health : Q; maxHealth : Q; progress : Q
}.

Definition isAlive (this : Enemy) : bool := Qltb 0 (health this).

Definition update (gameSpeed : Q) (this : Enemy) : Enemy :=
  let progress' := (progress this + 1 * gameSpeed)%Q in
  mkEnemy (progress' * 4)%Q (ey this) (health this) (maxHealth this) progress'.

Record Projectile := mkProjectile {
  px : Q; py : Q; targetX : Q; targetY : Q; pdamage : Q; pcolor : string
}.

Section loop.
Context `{Math}.

Definition targetable (ty : TowerType) (tower : Tower) (enemy : Enemy) : bool :=
  Qltb (hypot (ex enemy - x tower) (ey enemy - y tower)) (range ty)
  && isAlive enemy.

(** The body of the tower loop of the older [gameLoop]. *)
Definition towerAttack (now : Z) (gameSpeed : Q) (draw : Q)
    (es : list Enemy) (tower : Tower) : option (Tower * list Projectile) :=
  match es with
  | [] => Some (tower, [])
  | _ :: _ =>
      ty ← towerTypes !! type tower;
      match list_find (λ e, Is_true (targetable ty tower e)) es with
      | None => Some (tower, [])
      | Some (_, target) =>
          if canShoot now gameSpeed tower then
            Some (shoot now tower,
                  if Qltb draw (accuracy ty)
                  then [mkProjectile (x tower) (y tower) (ex target)
                          (ey target) (damage ty) (color ty)]
                  else [])
          else Some (tower, [])
      end
  end.

(** Clock readings at which the tower pushed a projectile, one tick per
    entry [(now, gameSpeed, enemies before movement, draw)]. *)
Fixpoint firingTimes (tower : Tower)
    (ticks : list (Z * Q * list Enemy * Q)) : option (list Z) :=
  match ticks with
  | [] => Some []
  | (now, gameSpeed, es, draw) :: rest =>
      '(tower', fired) ←
        towerAttack now gameSpeed draw (update gameSpeed <$> es) tower;
      times ← firingTimes tower' rest;
      Some (if fired is [] then times else now :: times)
  end.
End loop.
End Legacy.

(** ** Vocabulary of the properties *)

(** The registry has an entry for [k]. *)
Definition registered (k : string) : Prop := is_Some (towerTypes !! k).

(** Every tower has a registered type, and so has the placement selection:
    the state in which no lookup of [towerTypes] throws. *)
Definition wf (w : World) : Prop :=
  Forall (λ tower, registered (Tower.type tower)) (towers w)
  ∧ ∀ k, truthy (placingTower w) = Some k → registered k.

(** Every projectile time of the list is more than [gap] after [start],
    and more than [gap] after every earlier one. *)
Definition spaced (gap start : Z) (times : list Z) : Prop :=
  Forall (λ t, gap < t - start)%Z times
  ∧ ∀ i j t1 t2, i < j → times !! i = Some t1 → times !! j = Some t2 →
      (gap < t2 - t1)%Z.

(** ** Concrete states *)

(** One life left after 19 removals and the purchase of a basic tower, an
    enemy one step from the end of the track and an enemy near the tower. *)
Definition lastLife : World :=
  mkWorld 340 1 1 None false
    [Tower.constructor 100 200 "basic"]
    [Enemy.mk 796 200 300 300 199 spawnResistances;
     Enemy.mk 40 200 300 300 10 spawnResistances]
    [] true 0.

(** [n] consecutive frames, 16 ms apart, the first at [start]; every random
    draw is 0. *)
Definition frames (n : nat) (start : Z) : list Event :=
  (λ i, Frame (start + 16 * Z.of_nat i) (λ _, 0%Q)) <$> seq 0 n.

(** A session from the initial state: speed 2, twenty enemies spawned at
    once, 50 frames, one more enemy, 49 frames. The twenty are then at
    progress 198 and the last one at 98. *)
Definition rout : list Event :=
  [Speed 2] ++ replicate 20 SpawnEnemy ++ frames 50 5000 ++ [SpawnEnemy]
  ++ frames 49 5800.

(** A session at half speed: a basic tower bought and put at (10, 200), an
    enemy spawned, five frames 600 ms apart; every random draw is 0. *)
Definition ambush : list Event :=
  [Speed 0.5; PlaceTower "basic"; Click 10 200; SpawnEnemy]
  ++ ((λ i, Frame (5000 + 600 * Z.of_nat i) (λ _, 0%Q)) <$> seq 0 5).

(** What the HUD and the canvas show of a state: gold, lives, the progress
    of every enemy, the [x] of every projectile, whether a frame is
    requested and the number of alerts shown. *)
Definition shown (w : World) : Z * Z * list Q * list Q * bool * nat :=
  (gold w, lives w, Qred ∘ Enemy.progress <$> enemies w,
   Qred ∘ Projectile.x <$> projectiles w, frameRequested w, alerts w).

(** A basic tower at (100, 200) that has never shot, and an enemy on the
    track 60 to its left. *)
Definition guard : Tower.t := Tower.constructor 100 200 "basic".
Definition walker : Enemy.t := Enemy.mk 40 200 300 300 10 spawnResistances.
Definition skirmish : World :=
  mkWorld 150 20 1 None false [guard] [walker] [] true 0.

(** ** Binary64 damage arithmetic

    [takeDamage] on the kernel's binary64 floats, the numbers JavaScript
    computes with. *)

(** The doubles nearest to 0.2 and 0.1. *)
Definition fire64 : float := 0x1.999999999999ap-3%float.
Definition electric64 : float := 0x1.999999999999ap-4%float.

Definition takeDamage64 (damage resistance health : float) : float :=
  (health - damage * (1 - resistance))%float.

(** ** Vocabulary of the further properties *)

(** An enemy as [spawnEnemy] makes it and the tick moves and damages it: on
    the track line, with the spawn profile, [x] following [progress], and not
    above full health. *)
Definition spawned (e : Enemy.t) : Prop :=
  Enemy.y e = 200%Q
  ∧ Enemy.maxHealth e = 300%Q
  ∧ Enemy.resistances e = spawnResistances
  ∧ (Enemy.x e == Enemy.progress e * 4)%Q
  ∧ (Enemy.health e <= 300)%Q.

(** A projectile whose damage and element are those of a registered tower
    type. *)
Definition fromRegistry (p : Projectile.t) : Prop :=
  ∃ k ty, towerTypes !! k = Some ty
    ∧ Projectile.damage p = damage ty
    ∧ Projectile.element p = element ty.

(** What an impact may do to an enemy: nothing but lower [health], and
    nothing at all to an enemy that is not alive. *)
Definition onlyHurt (e e' : Enemy.t) : Prop :=
  Enemy.x e' = Enemy.x e
  ∧ Enemy.y e' = Enemy.y e
  ∧ Enemy.progress e' = Enemy.progress e
  ∧ Enemy.maxHealth e' = Enemy.maxHealth e
  ∧ Enemy.resistances e' = Enemy.resistances e
  ∧ ((Enemy.health e <= 0)%Q → e' = e).

(** The placement selection is affordable: gold covers the cost of the
    selected type. *)
Definition affordable (w : World) : Prop :=
  ∀ k ty, truthy (placingTower w) = Some k → towerTypes !! k = Some ty →
    (cost ty <= gold w)%Z.

(** The same tower later on: where it was, of the type it had, its last
    shot no earlier. *)
Definition aged (tower tower' : Tower.t) : Prop :=
  Tower.x tower' = Tower.x tower
  ∧ Tower.y tower' = Tower.y tower
  ∧ Tower.type tower' = Tower.type tower
  ∧ (Tower.lastShot tower <= Tower.lastShot tower')%Z.

(** The enemies are spawned ones, alive and before the end of the track, and
    the projectiles come from the registry. *)
Definition board (w : World) : Prop :=
  Forall (λ e, spawned e ∧ (0 < Enemy.health e)%Q
               ∧ (Enemy.progress e < 200)%Q) (enemies w)
  ∧ Forall fromRegistry (projectiles w).

(** Every projectile time of the list is more than [gap] milliseconds after
    [start] and after every earlier one, for a fractional [gap]. *)
Definition spacedQ (gap : Q) (start : Z) (times : list Z) : Prop :=
  Forall (λ t, gap < inject_Z (t - start))%Q times
  ∧ ∀ a b t1 t2, a < b → times !! a = Some t1 → times !! b = Some t2 →
      (gap < inject_Z (t2 - t1))%Q.

(** The health of a spawned enemy after [a] hits of a basic tower, [b] of a
    sniper and [c] of a splash tower. *)
Definition tallied (e : Enemy.t) : Prop :=
  spawned e
  ∧ ∃ a b c : nat,
      (Enemy.health e
       == 300 - 8 * inject_Z (Z.of_nat a) - 30 * inject_Z (Z.of_nat b)
          - 18 * inject_Z (Z.of_nat c))%Q.

(** What the towers of the array have cost: [towerTypes[tower.type].cost]
    summed over the array. *)
Fixpoint invested (ts : list Tower.t) : Z :=
  match ts with
  | [] => 0
  | tower :: rest =>
      default 0 (cost <$> towerTypes !! Tower.type tower) + invested rest
  end%Z.

Section flights.
Context `{Math}.

End flights.

(** * Properties *)

(** ** Comparisons and the registry *)

Lemma Qltb_lt (a b : Q) : Qltb a b = true ↔ (a < b)%Q.
Proof.
  unfold Qltb. rewrite negb_true_iff. split.
  - intros Hle. apply Qnot_le_lt. intros Hba.
    apply Qle_bool_iff in Hba. congruence.
  - intros Hlt. destruct (Qle_bool b a) eqn:Hba; [|done].
    apply Qle_bool_iff in Hba. exfalso. by apply (Qlt_not_le a b).
Qed.

Lemma Qltb_ge (a b : Q) : Qltb a b = false ↔ (b <= a)%Q.
Proof.
  unfold Qltb. rewrite negb_false_iff. apply Qle_bool_iff.
Qed.

Lemma Qgeb_ge (a b : Q) : Qgeb a b = true ↔ (b <= a)%Q.
Proof. apply Qle_bool_iff. Qed.

Lemma towerTypes_lookup (k : string) (ty : TowerType) :
  towerTypes !! k = Some ty ↔
  (k = "basic" ∧ ty = basic) ∨ (k = "sniper" ∧ ty = sniper)
  ∨ (k = "splash" ∧ ty = splash).
Proof.
  unfold towerTypes. rewrite !lookup_insert_Some, lookup_empty.
  intuition congruence.
Qed.

Lemma attackSpeed_pos (k : string) (ty : TowerType) :
  towerTypes !! k = Some ty → (0 < attackSpeed ty)%Z.
Proof.
  intros [[_ ->]|[[_ ->]|[_ ->]]]%towerTypes_lookup; reflexivity.
Qed.

(** ** Placement *)

(** For a registered key [addTower] does not throw: it pays and pushes
    when the gold suffices, and leaves placement mode either way. *)
Lemma addTower_registered (x y : Q) (type : string) (ty : TowerType)
    (w : World) :
  towerTypes !! type = Some ty →
  addTower x y type w
  = Some (setPlacingTower None
            (if (cost ty <=? gold w)%Z
             then setGold (λ prev, prev - cost ty)%Z
                    (pushTower (Tower.constructor x y type) w)
             else w)).
Proof. intros Hty. unfold addTower. by rewrite Hty. Qed.

(** C1. Affordability: for a registered tower type, [addTower] returns; with
    [gold < cost] the tower array and [gold] are unchanged, with
    [gold >= cost] exactly one tower (a fresh one at the position, of that
    type) is appended and [gold] decreases by exactly [cost]. *)
Theorem addTower_affordability (x y : Q) (type : string) (ty : TowerType)
    (w : World) :
  towerTypes !! type = Some ty →
  ∃ w', addTower x y type w = Some w'
    ∧ ((gold w < cost ty)%Z → towers w' = towers w ∧ gold w' = gold w)
    ∧ ((gold w >= cost ty)%Z →
         towers w' = towers w ++ [Tower.constructor x y type]
         ∧ length (towers w') = S (length (towers w))
         ∧ gold w' = (gold w - cost ty)%Z).
Proof.
  intros Hty. rewrite (addTower_registered x y type ty w Hty).
  eexists. split; [reflexivity|].
  destruct (Z.leb_spec (cost ty) (gold w)); simpl.
  - split; [lia|]. intros _. rewrite length_app. simpl.
    split_and!; [done|lia|done].
  - split; [done|lia].
Qed.

Lemma addTower_affordability_witness :
  ∃ w', addTower 100 200 "basic" initialWorld = Some w'
    ∧ towers w' = [Tower.constructor 100 200 "basic"] ∧ gold w' = 150%Z.
Proof.
  destruct (addTower_affordability 100 200 "basic" basic initialWorld)
    as (w' & Hrun & _ & Hpay); [reflexivity|].
  exists w'. destruct Hpay as (Htowers & _ & Hgold); [simpl; lia|].
  split_and!; [exact Hrun|exact Htowers|exact Hgold].
Defined.

(** C8. Placement mode is cleared by every placement attempt of a registered
    type, paid or refused for lack of gold: in both cases [addTower] returns
    and [placingTower] is [null] afterwards. *)
Theorem addTower_clears_placingTower (x y : Q) (type : string)
    (ty : TowerType) (w : World) :
  towerTypes !! type = Some ty →
  ∃ w', addTower x y type w = Some w'
    ∧ placingTower w' = None
    ∧ ((gold w < cost ty)%Z → towers w' = towers w ∧ gold w' = gold w)
    ∧ ((gold w >= cost ty)%Z → length (towers w') = S (length (towers w))).
Proof.
  intros Hty. rewrite (addTower_registered x y type ty w Hty).
  eexists. split; [reflexivity|]. split; [reflexivity|].
  destruct (Z.leb_spec (cost ty) (gold w)); simpl.
  - split; [lia|]. intros _. rewrite length_app. simpl. lia.
  - split; [done|lia].
Qed.

(** A refused placement: 10 gold against the 150 of a splash tower. *)
Lemma addTower_clears_placingTower_witness :
  ∃ w', addTower 100 200 "splash"
          (setGold (λ _, 10%Z) (setPlacingTower (Some "splash") initialWorld))
        = Some w'
    ∧ placingTower w' = None ∧ towers w' = [] ∧ gold w' = 10%Z.
Proof.
  destruct (addTower_clears_placingTower 100 200 "splash" splash
              (setGold (λ _, 10%Z)
                 (setPlacingTower (Some "splash") initialWorld)))
    as (w' & Hrun & Hcleared & Hrefused & _); [reflexivity|].
  exists w'. destruct Hrefused as [Htowers Hgold]; [simpl; lia|].
  split_and!; [exact Hrun|exact Hcleared|exact Htowers|exact Hgold].
Defined.

(** The only caller of [addTower]: a click in placement mode. *)
Lemma handleCanvasClick_clears (x y : Q) (w : World) (k : string) :
  truthy (placingTower w) = Some k → registered k →
  ∃ w', handleCanvasClick x y w = Some w' ∧ placingTower w' = None.
Proof.
  intros Hk [ty Hty]. unfold handleCanvasClick. rewrite Hk.
  rewrite (addTower_registered x y k ty w Hty). by eexists.
Qed.

(** An unregistered key throws before [setPlacingTower(null)] is reached. *)
Lemma addTower_unregistered (x y : Q) (type : string) (w : World) :
  towerTypes !! type = None → addTower x y type w = None.
Proof. intros Hty. unfold addTower. by rewrite Hty. Qed.

(** ** Damage and resistance *)

Lemma takeDamage_health (damage : Q) (element : string) (e : Enemy.t) :
  (Enemy.health e - Enemy.health (Enemy.takeDamage damage element e)
   == damage * (1 - default 0 (Enemy.resistances e !! element)))%Q.
Proof. unfold Enemy.takeDamage, Enemy.resistance. simpl. ring. Qed.

(** C5. A hit lowers [health] by exactly [damage * (1 - resistance)], the
    resistance being 0 when the element has no entry; nothing clamps the
    result, which can be negative; damage 10 against fire resistance 0.2
    takes exactly 8; with resistance 0 or none the full damage is taken;
    and [isAlive] is exactly [health > 0]. *)
Theorem takeDamage_arithmetic (damage : Q) (element : string) (e : Enemy.t)
    (x y h mh p : Q) (rs : gmap string Q) :
  (Enemy.health e - Enemy.health (Enemy.takeDamage damage element e)
   == damage * (1 - default 0 (Enemy.resistances e !! element)))%Q
  ∧ (Enemy.health
       (Enemy.takeDamage 10 "fire" (Enemy.mk x y h mh p spawnResistances))
     == h - 8)%Q
  ∧ (Enemy.health
       (Enemy.takeDamage damage element
          (Enemy.mk x y h mh p (<[element := 0%Q]> rs)))
     == h - damage)%Q
  ∧ (Enemy.health
       (Enemy.takeDamage damage element
          (Enemy.mk x y h mh p (delete element rs)))
     == h - damage)%Q
  ∧ (Enemy.health
       (Enemy.takeDamage 10 "fire" (Enemy.mk x y 4 300 p spawnResistances))
     == -4)%Q
  ∧ Enemy.isAlive
      (Enemy.takeDamage 10 "fire" (Enemy.mk x y 4 300 p spawnResistances))
    = false
  ∧ (Enemy.isAlive e = true ↔ (0 < Enemy.health e)%Q).
Proof.
  split_and!.
  - apply takeDamage_health.
  - unfold Enemy.takeDamage, Enemy.resistance. simpl.
    change (spawnResistances !! "fire") with (Some 0.2%Q). simpl.
    unfold Qeq. simpl. lia.
  - unfold Enemy.takeDamage, Enemy.resistance. simpl.
    rewrite lookup_insert_eq. simpl. ring.
  - unfold Enemy.takeDamage, Enemy.resistance. simpl.
    rewrite lookup_delete_eq. simpl. ring.
  - reflexivity.
  - reflexivity.
  - apply Qltb_lt.
Qed.

(** ** Targeting *)

Section targeting.
Context `{Math}.

Lemma targetable_spec (ty : TowerType) (tower : Tower.t) (e : Enemy.t) :
  targetable ty tower e = true ↔
  (hypot (Enemy.x e - Tower.x tower) (Enemy.y e - Tower.y tower) < range ty)%Q
  ∧ (0 < Enemy.health e)%Q.
Proof.
  unfold targetable, inRange, Enemy.isAlive.
  by rewrite andb_true_iff, !Qltb_lt.
Qed.

Lemma nearbyEnemy_registered (tower : Tower.t) (ty : TowerType)
    (es : list Enemy.t) :
  towerTypes !! Tower.type tower = Some ty →
  nearbyEnemy tower es
  = Some (list_find (λ e, Is_true (targetable ty tower e)) es).
Proof.
  intros Hty. unfold nearbyEnemy. destruct es; [done|]. by rewrite Hty.
Qed.

Lemma towerAttack_registered (now : Z) (rand : nat → Q) (dark : bool)
    (es : list Enemy.t) (tower : Tower.t) (k : nat) (ty : TowerType) :
  towerTypes !! Tower.type tower = Some ty →
  towerAttack now rand dark es tower k
  = Some
      match list_find (λ e, Is_true (targetable ty tower e)) es with
      | Some (_, target) =>
          if (attackSpeed ty <? now - Tower.lastShot tower)%Z
          then (Tower.shoot now tower,
                if Qltb (rand k) (accuracy ty)
                then [shot ty dark tower target] else [],
                S k)
          else (tower, [], k)
      | None => (tower, [], k)
      end.
Proof.
  intros Hty. unfold towerAttack.
  rewrite (nearbyEnemy_registered _ ty) by done. simpl.
  destruct (list_find _ es) as [[i target]|]; [|done].
  unfold Tower.canShoot. rewrite Hty. simpl.
  by destruct (_ <? _)%Z.
Qed.

(** C6. The tower's target is the first enemy of the array, in iteration
    order, that is strictly within [range] and alive, whatever the
    distances of later enemies; when no enemy qualifies the tower is left
    as it was, pushes no projectile and draws no random number. *)
Theorem target_is_first_in_range (tower : Tower.t) (ty : TowerType)
    (es : list Enemy.t) :
  towerTypes !! Tower.type tower = Some ty →
  (∀ i target,
     nearbyEnemy tower es = Some (Some (i, target)) ↔
     es !! i = Some target
     ∧ ((hypot (Enemy.x target - Tower.x tower)
               (Enemy.y target - Tower.y tower) < range ty)%Q
        ∧ (0 < Enemy.health target)%Q)
     ∧ ∀ j e, es !! j = Some e → j < i →
         ¬ ((hypot (Enemy.x e - Tower.x tower)
                   (Enemy.y e - Tower.y tower) < range ty)%Q
            ∧ (0 < Enemy.health e)%Q))
  ∧ ((∀ e, e ∈ es →
        ¬ ((hypot (Enemy.x e - Tower.x tower)
                  (Enemy.y e - Tower.y tower) < range ty)%Q
           ∧ (0 < Enemy.health e)%Q)) →
     nearbyEnemy tower es = Some None
     ∧ ∀ now rand dark k,
         towerAttack now rand dark es tower k = Some (tower, [], k)).
Proof.
  intros Hty. split.
  - intros i target. rewrite (nearbyEnemy_registered _ ty) by done.
    split.
    + intros [= (Hi & Hok & Hfirst)%list_find_Some].
      split; [done|]. split; [by apply targetable_spec, Is_true_true|].
      intros j e Hj Hlt Hin. apply (Hfirst j e Hj Hlt).
      by apply Is_true_true, targetable_spec.
    + intros (Hi & Hok & Hfirst). f_equal. apply list_find_Some.
      split; [done|]. split; [by apply Is_true_true, targetable_spec|].
      intros j e Hj Hlt Hin%Is_true_true%targetable_spec.
      by apply (Hfirst j e Hj Hlt).
  - intros Hnone.
    assert (list_find (λ e, Is_true (targetable ty tower e)) es = None)
      as Hfind.
    { apply list_find_None, Forall_forall.
      intros e He Hin%Is_true_true%targetable_spec. by apply (Hnone e). }
    split.
    + rewrite (nearbyEnemy_registered _ ty) by done. by rewrite Hfind.
    + intros now rand dark k.
      rewrite (towerAttack_registered _ _ _ _ _ _ ty) by done.
      by rewrite Hfind.
Qed.
End targeting.

(** ** The tick as a whole *)

Section tick.
Context `{Math}.

Lemma towerAttack_type (now : Z) (rand : nat → Q) (dark : bool)
    (es : list Enemy.t) (tower tower' : Tower.t) (k k' : nat)
    (fired : list Projectile.t) :
  towerAttack now rand dark es tower k = Some (tower', fired, k') →
  Tower.type tower' = Tower.type tower.
Proof.
  unfold towerAttack. intros Hrun.
  destruct (nearbyEnemy tower es) as [[[i target]|]|]; simplify_eq/=; [|done].
  destruct (Tower.canShoot now tower) as [[]|]; simplify_eq/=; [|done].
  destruct (towerTypes !! Tower.type tower); by simplify_eq/=.
Qed.

(** The tower loop visits every tower once, in array order: the i-th tower
    after the loop is the i-th tower before it after one [towerAttack], and
    what it pushed is part of what the loop pushed. *)
Lemma towersAttack_registered (now : Z) (rand : nat → Q) (dark : bool)
    (es : list Enemy.t) (ts : list Tower.t) (k : nat) :
  Forall (λ tower, registered (Tower.type tower)) ts →
  ∃ ts' fired k',
    towersAttack now rand dark es ts k = Some (ts', fired, k')
    ∧ Forall (λ tower, registered (Tower.type tower)) ts'
    ∧ length ts' = length ts
    ∧ ∀ i tower, ts !! i = Some tower →
        ∃ ki tower' f kj,
          towerAttack now rand dark es tower ki = Some (tower', f, kj)
          ∧ ts' !! i = Some tower'
          ∧ f `sublist_of` fired.
Proof.
  intros Hreg. revert k.
  induction Hreg as [|tower rest [ty Hty] Hrest IH]; intros k.
  - exists [], [], k. split_and!; [done|done|done|].
    intros i tower Hi. by rewrite lookup_nil in Hi.
  - pose proof (towerAttack_registered now rand dark es tower k ty Hty)
      as Hone.
    destruct (match list_find _ es with Some _ => _ | None => _ end)
      as [[tower' f] k1] eqn:Hres in Hone.
    destruct (IH k1) as (rest' & more & k2 & Hloop & Hreg' & Hlen & Hith).
    exists (tower' :: rest'), (f ++ more), k2. split_and!.
    + simpl. rewrite Hone. simpl. rewrite Hloop. done.
    + constructor; [|done]. unfold registered.
      rewrite (towerAttack_type _ _ _ _ _ _ _ _ _ Hone). by exists ty.
    + simpl. by rewrite Hlen.
    + intros [|i] t Hi; simplify_eq/=.
      * exists k, tower', f, k1. split_and!; [done|done|].
        by apply sublist_inserts_r.
      * destruct (Hith i t Hi) as (ki & t' & f' & kj & Hrun & Hi' & Hsub).
        exists ki, t', f', kj. split_and!; [done|done|].
        by apply sublist_inserts_l.
Qed.

Lemma render_registered (placing : option string) (ts : list Tower.t) :
  Forall (λ tower, registered (Tower.type tower)) ts →
  (∀ k, truthy placing = Some k → registered k) →
  render placing ts = Some ().
Proof.
  intros Hts Hplacing. unfold render.
  destruct (mapM _ ts) as [cs|] eqn:Hcs.
  - simpl. destruct (truthy placing) as [k|] eqn:Hk; [|done].
    destruct (Hplacing k eq_refl) as [ty Hty]. by rewrite Hty.
  - exfalso. apply eq_None_not_Some in Hcs. apply Hcs, mapM_is_Some.
    eapply Forall_impl; [exact Hts|]. intros tower [ty Hty]. simpl.
    rewrite Hty. by eexists.
Qed.

(** On a well-formed state the tick runs to its end. *)
Lemma combat_wf (now : Z) (rand : nat → Q) (w : World) :
  wf w →
  ∃ ts fired k',
    towersAttack now rand (isDarkMode w)
      (Enemy.update (gameSpeed w) <$> enemies w) (towers w) 0
    = Some (ts, fired, k')
    ∧ Forall (λ tower, registered (Tower.type tower)) ts
    ∧ combat now rand w
      = Some (ts,
              (updateProjectiles (gameSpeed w) (projectiles w ++ fired)
                 (Enemy.update (gameSpeed w) <$> enemies w)).2,
              (updateProjectiles (gameSpeed w) (projectiles w ++ fired)
                 (Enemy.update (gameSpeed w) <$> enemies w)).1).
Proof.
  intros [Hts Hplacing].
  destruct (towersAttack_registered now rand (isDarkMode w)
              (Enemy.update (gameSpeed w) <$> enemies w) (towers w) 0 Hts)
    as (ts & fired & k' & Hloop & Hreg & _ & _).
  exists ts, fired, k'. split_and!; [done|done|].
  unfold combat. rewrite Hloop. simpl.
  destruct (updateProjectiles _ _ _) as [ps es]. simpl.
  by rewrite (render_registered _ _ Hreg Hplacing).
Qed.

Lemma gameLoop_combat (now : Z) (rand : nat → Q) (w : World)
    (ts : list Tower.t) (es : list Enemy.t) (ps : list Projectile.t) :
  combat now rand w = Some (ts, es, ps) →
  gameLoop now rand w
  = Some
      (let survivingEnemies := filter (λ e, Is_true (survives e)) es in
       let defeatedEnemies :=
         (Z.of_nat (length es) - Z.of_nat (length survivingEnemies))%Z in
       let paid := (0 <? defeatedEnemies)%Z in
       mkWorld
         (if paid then (gold w + defeatedEnemies * 10)%Z else gold w)
         (if paid then (lives w - defeatedEnemies)%Z else lives w)
         (gameSpeed w) (placingTower w) (isDarkMode w) ts survivingEnemies ps
         (negb (lives w <=? 0)%Z)
         (if (lives w <=? 0)%Z then S (alerts w) else alerts w)).
Proof. intros Hcombat. unfold gameLoop. by rewrite Hcombat. Qed.

Lemma gameLoop_wf (now : Z) (rand : nat → Q) (w : World) :
  wf w → ∃ w', gameLoop now rand w = Some w' ∧ wf w'.
Proof.
  intros Hwf. destruct (combat_wf now rand w Hwf)
    as (ts & fired & k' & _ & Hreg & Hcombat).
  eexists. split; [by apply gameLoop_combat|].
  split; [done|]. apply Hwf.
Qed.
End tick.

(** ** Attack attempts *)

Section attempts.
Context `{Math}.

(** A tower with a target in range that is off cooldown attempts a shot:
    it becomes [Tower.shoot now tower] and uses one random draw, and the
    draw alone decides whether a projectile is pushed. *)
Lemma towerAttack_attempt (now : Z) (rand : nat → Q) (dark : bool)
    (es : list Enemy.t) (tower : Tower.t) (k : nat) (ty : TowerType)
    (e : Enemy.t) :
  towerTypes !! Tower.type tower = Some ty →
  e ∈ es →
  (hypot (Enemy.x e - Tower.x tower) (Enemy.y e - Tower.y tower) < range ty)%Q →
  (0 < Enemy.health e)%Q →
  (attackSpeed ty < now - Tower.lastShot tower)%Z →
  ∃ target,
    towerAttack now rand dark es tower k
    = Some (Tower.shoot now tower,
            if Qltb (rand k) (accuracy ty)
            then [shot ty dark tower target] else [],
            S k).
Proof.
  intros Hty He Hnear Halive Hcool.
  rewrite (towerAttack_registered _ _ _ _ _ _ ty) by done.
  destruct (list_find_elem_of (λ e, Is_true (targetable ty tower e)) es e)
    as [[j target] Hfind]; [done|by apply Is_true_true, targetable_spec|].
  rewrite Hfind. exists target.
  by destruct (Z.ltb_spec (attackSpeed ty) (now - Tower.lastShot tower));
    [|lia].
Qed.

(** C3. In a tick, a tower that has a live enemy strictly in range (after
    the movement of that tick) and whose cooldown has elapsed
    ([now - lastShot > attackSpeed]) ends the tick with [lastShot = now],
    position and type unchanged, for every outcome of the accuracy draw;
    the draw decides only whether its projectile is pushed. *)
Theorem lastShot_reset_on_attempt (now : Z) (rand : nat → Q) (w : World)
    (i : nat) (tower : Tower.t) (ty : TowerType) (e : Enemy.t) :
  wf w →
  towers w !! i = Some tower →
  towerTypes !! Tower.type tower = Some ty →
  e ∈ Enemy.update (gameSpeed w) <$> enemies w →
  (hypot (Enemy.x e - Tower.x tower) (Enemy.y e - Tower.y tower) < range ty)%Q →
  (0 < Enemy.health e)%Q →
  (attackSpeed ty < now - Tower.lastShot tower)%Z →
  (∃ w', gameLoop now rand w = Some w'
     ∧ towers w' !! i = Some (Tower.shoot now tower))
  ∧ Tower.lastShot (Tower.shoot now tower) = now
  ∧ ∀ k, ∃ target,
      towerAttack now rand (isDarkMode w)
        (Enemy.update (gameSpeed w) <$> enemies w) tower k
      = Some (Tower.shoot now tower,
              if Qltb (rand k) (accuracy ty)
              then [shot ty (isDarkMode w) tower target] else [],
              S k).
Proof.
  intros Hwf Hi Hty He Hnear Halive Hcool. split_and!; [|done|].
  - destruct (combat_wf now rand w Hwf)
      as (ts & fired & k' & Hloop & _ & Hcombat).
    destruct (towersAttack_registered now rand (isDarkMode w)
                (Enemy.update (gameSpeed w) <$> enemies w) (towers w) 0
                (proj1 Hwf))
      as (ts2 & fired2 & k2 & Hloop2 & _ & _ & Hith).
    rewrite Hloop in Hloop2. simplify_eq.
    destruct (Hith i tower Hi) as (ki & tower' & f & kj & Hrun & Hi' & _).
    destruct (towerAttack_attempt now rand (isDarkMode w)
                (Enemy.update (gameSpeed w) <$> enemies w) tower ki ty e)
      as [target Hshot]; [done..|].
    rewrite Hshot in Hrun. simplify_eq.
    eexists. split; [by apply gameLoop_combat|]. done.
  - intros k. by eapply towerAttack_attempt.
Qed.

(** C10. A new tower has [lastShot = 0]: once the clock reads more than its
    [attackSpeed] (as any [Date.now()] does) it can shoot, and in the first
    tick that shows it a live enemy in range it attempts its shot. *)
Theorem new_tower_off_cooldown (x y : Q) (type : string) (ty : TowerType)
    (now : Z) :
  towerTypes !! type = Some ty →
  (attackSpeed ty < now)%Z →
  Tower.lastShot (Tower.constructor x y type) = 0%Z
  ∧ Tower.canShoot now (Tower.constructor x y type) = Some true
  ∧ ∀ rand dark es k e,
      e ∈ es →
      (hypot (Enemy.x e - x) (Enemy.y e - y) < range ty)%Q →
      (0 < Enemy.health e)%Q →
      ∃ target,
        towerAttack now rand dark es (Tower.constructor x y type) k
        = Some (Tower.shoot now (Tower.constructor x y type),
                if Qltb (rand k) (accuracy ty)
                then [shot ty dark (Tower.constructor x y type) target]
                else [],
                S k).
Proof.
  intros Hty Hnow. split_and!; [done| |].
  - unfold Tower.canShoot. simpl. rewrite Hty. simpl. f_equal.
    apply Z.ltb_lt. lia.
  - intros rand dark es k e He Hnear Halive.
    apply (towerAttack_attempt _ _ _ _ _ _ ty e); [done..|]. simpl. lia.
Qed.
End attempts.

(** ** Projectile impact *)

Section impacts.
Context `{Math}.

Lemma hittable_spec (p : Projectile.t) (e : Enemy.t) :
  hittable p e = true ↔
  (hypot (Enemy.x e - Projectile.targetX p)
         (Enemy.y e - Projectile.targetY p) < 20)%Q
  ∧ (0 < Enemy.health e)%Q.
Proof.
  unfold hittable, Enemy.isAlive. by rewrite andb_true_iff, !Qltb_lt.
Qed.

(** C9. A projectile that arrived changes at most one entry of the enemy
    array: the first enemy, in iteration order, that is alive and strictly
    within 20 of the projectile's target point takes
    [takeDamage(damage, element)], every other entry is untouched; when
    there is none the array is unchanged. The projectile carries no tower
    type, so this holds for the projectiles of every archetype. In the
    [filter] pass an arrived projectile (less than 5 from its target point)
    is dropped after its impact and a projectile still in flight leaves the
    enemies alone; moving a projectile never changes its target point. *)
Theorem impact_hits_first_enemy_only (p : Projectile.t) (es : list Enemy.t)
    (gameSpeed : Q) (rest : list Projectile.t) :
  (((∀ e, e ∈ es →
       ¬ ((hypot (Enemy.x e - Projectile.targetX p)
                 (Enemy.y e - Projectile.targetY p) < 20)%Q
          ∧ (0 < Enemy.health e)%Q))
    ∧ impact p es = es)
   ∨ ∃ i hitEnemy,
       es !! i = Some hitEnemy
       ∧ ((hypot (Enemy.x hitEnemy - Projectile.targetX p)
                 (Enemy.y hitEnemy - Projectile.targetY p) < 20)%Q
          ∧ (0 < Enemy.health hitEnemy)%Q)
       ∧ (∀ j e, es !! j = Some e → j < i →
            ¬ ((hypot (Enemy.x e - Projectile.targetX p)
                      (Enemy.y e - Projectile.targetY p) < 20)%Q
               ∧ (0 < Enemy.health e)%Q))
       ∧ impact p es
         = <[i := Enemy.takeDamage (Projectile.damage p)
                    (Projectile.element p) hitEnemy]> es
       ∧ (∀ j, j ≠ i → impact p es !! j = es !! j)
       ∧ length (impact p es) = length es)
  ∧ ((Projectile.update gameSpeed p).2 = false →
     updateProjectiles gameSpeed (p :: rest) es
     = updateProjectiles gameSpeed rest (impact p es))
  ∧ ((Projectile.update gameSpeed p).2 = true →
     updateProjectiles gameSpeed (p :: rest) es
     = ((Projectile.update gameSpeed p).1
          :: (updateProjectiles gameSpeed rest es).1,
        (updateProjectiles gameSpeed rest es).2))
  ∧ ((Projectile.update gameSpeed p).2 = false ↔
     (hypot (Projectile.targetX p - Projectile.x p)
            (Projectile.targetY p - Projectile.y p) < 5)%Q)
  ∧ Projectile.targetX (Projectile.update gameSpeed p).1 = Projectile.targetX p
  ∧ Projectile.targetY (Projectile.update gameSpeed p).1 = Projectile.targetY p.
Proof.
  assert (∀ (b : bool) (a c : Projectile.t * bool),
            (if b then a else c).2 = (if b then a.2 else c.2)) as Hif
    by (by intros []).
  split_and!; [| | | |unfold Projectile.update; by destruct (Qltb _ 5)..].
  4: { unfold Projectile.update. rewrite Hif. simpl. rewrite <- Qltb_lt.
       by destruct (Qltb _ 5). }
  - unfold impact.
    destruct (list_find _ es) as [[i hitEnemy]|] eqn:Hfind.
    + right. exists i, hitEnemy.
      apply list_find_Some in Hfind as (Hi & Hhit & Hfirst).
      split; [done|]. split; [by apply hittable_spec, Is_true_true|].
      split.
      { intros j e Hj Hlt Hin. apply (Hfirst j e Hj Hlt).
        by apply Is_true_true, hittable_spec. }
      split; [done|]. split.
      { intros j Hne. by apply list_lookup_insert_ne. }
      apply length_insert.
    + left. split; [|done]. intros e He Hin.
      apply list_find_None in Hfind.
      apply (proj1 (Forall_forall _ _) Hfind e He).
      by apply Is_true_true, hittable_spec.
  - intros Harrived. simpl.
    unfold Projectile.update in *.
    destruct (Qltb _ 5); simplify_eq/=.
    by destruct (updateProjectiles gameSpeed rest (impact p es)).
  - intros Hflying. simpl.
    unfold Projectile.update in *.
    destruct (Qltb _ 5); simplify_eq/=.
    by destruct (updateProjectiles gameSpeed rest es).
Qed.
End impacts.

(** ** Removal and economy *)

Lemma survives_false (e : Enemy.t) :
  survives e = false ↔
  (Enemy.health e <= 0)%Q ∨ (200 <= Enemy.progress e)%Q.
Proof.
  unfold survives, Enemy.isAlive, Enemy.reachedEnd.
  rewrite andb_false_iff, negb_false_iff, Qltb_ge, Qgeb_ge. done.
Qed.

Lemma length_filter_split {A} (f : A → bool) (l : list A) :
  length (filter (λ a, Is_true (f a)) l)
  + length (filter (λ a, Is_true (negb (f a))) l)
  = length l.
Proof.
  induction l as [|a l IH]; [done|].
  destruct (f a) eqn:Hf.
  - rewrite (filter_cons_True (λ a, Is_true (f a)))
      by (cbv beta; rewrite Hf; exact I).
    rewrite (filter_cons_False (λ a, Is_true (negb (f a))))
      by (cbv beta; rewrite Hf; intros []).
    simpl. lia.
  - rewrite (filter_cons_False (λ a, Is_true (f a)))
      by (cbv beta; rewrite Hf; intros []).
    rewrite (filter_cons_True (λ a, Is_true (negb (f a))))
      by (cbv beta; rewrite Hf; exact I).
    simpl. lia.
Qed.

Section economy.
Context `{Math}.

(** C4. In every tick of a well-formed state, with [es] the enemy array
    when the removal step starts: the enemies kept are those of [es] that
    are alive and have not reached the end, an enemy is removed exactly
    when [health <= 0] or [progress >= 200], and with [removedCount] the
    number of removed enemies, whatever the cause, [gold] grows by
    [10 * removedCount] and [lives] shrinks by [1 * removedCount]. *)
Theorem removal_gold_and_lives (now : Z) (rand : nat → Q) (w : World) :
  wf w →
  ∃ w' ts es ps removedCount,
    combat now rand w = Some (ts, es, ps)
    ∧ gameLoop now rand w = Some w'
    ∧ enemies w' = filter (λ e, Is_true (survives e)) es
    ∧ (∀ e, e ∈ es →
         (e ∉ enemies w' ↔
          (Enemy.health e <= 0)%Q ∨ (200 <= Enemy.progress e)%Q))
    ∧ removedCount
      = length (filter (λ e, Is_true (negb (survives e))) es)
    ∧ length es = length (enemies w') + removedCount
    ∧ gold w' = (gold w + 10 * Z.of_nat removedCount)%Z
    ∧ lives w' = (lives w - 1 * Z.of_nat removedCount)%Z.
Proof.
  intros Hwf.
  destruct (combat_wf now rand w Hwf) as (ts & fired & k' & _ & _ & Hcombat).
  set (es := (updateProjectiles _ _ _).2) in Hcombat.
  set (ps := (updateProjectiles _ _ _).1) in Hcombat.
  pose proof (length_filter_split survives es) as Hsplit.
  eexists _, ts, es, ps, _.
  split; [exact Hcombat|]. split; [by apply gameLoop_combat|].
  simpl. split; [done|]. split.
  { intros e He. rewrite list_elem_of_filter, <- survives_false.
    destruct (survives e); simpl; intuition congruence. }
  split; [done|]. split; [lia|].
  destruct (Z.ltb_spec 0
    (Z.of_nat (length es)
     - Z.of_nat (length (filter (λ e, Is_true (survives e)) es)))); lia.
Qed.
End economy.

(** ** Sessions *)

Lemma initialWorld_wf : wf initialWorld.
Proof. split; [constructor|]. intros k Hk. discriminate Hk. Qed.

Lemma commit_wf (w w' : World) : wf w' → wf (commit w w').
Proof. intros Hwf. unfold commit. by destruct (sameDeps w w'). Qed.

Lemma addTower_wf (x y : Q) (type : string) (w : World) :
  registered type → wf w → ∃ w', addTower x y type w = Some w' ∧ wf w'.
Proof.
  intros [ty Hty] [Hts _]. unfold addTower. rewrite Hty. simpl.
  eexists. split; [done|]. split; [|intros k Hk; discriminate Hk].
  destruct (_ <=? _)%Z; simpl; [|done].
  apply Forall_app. split; [done|]. constructor; [|done]. by exists ty.
Qed.

Section sessions.
Context `{Math}.

(** No event of a session throws, and well-formedness is kept. *)
Lemma step_wf (ev : Event) (w : World) :
  wf w → ∃ w', step ev w = Some w' ∧ wf w'.
Proof.
  intros Hwf. destruct ev as [now rand|x y| | |k| |s]; simpl.
  - destruct (frameRequested w); [|by exists w].
    destruct (gameLoop_wf now rand w Hwf) as (w' & -> & Hwf').
    eexists. split; [done|]. by apply commit_wf.
  - unfold handleCanvasClick.
    destruct (truthy (placingTower w)) as [k|] eqn:Hk.
    + destruct (addTower_wf x y k w) as (w' & -> & Hwf');
        [by apply Hwf|done|].
      eexists. split; [done|]. by apply commit_wf.
    + eexists. split; [done|]. by apply commit_wf.
  - by exists (effect w).
  - exists (spawnEnemy w). split; [done|]. apply Hwf.
  - destruct (towerTypes !! k) as [ty|] eqn:Hty; [|by exists w].
    destruct (_ <? _)%Z; [by exists w|].
    eexists. split; [done|]. apply commit_wf. split; [apply Hwf|].
    simpl. intros k'. case_decide; intros [= <-]. by exists ty.
  - eexists. split; [done|]. apply commit_wf. split; [apply Hwf|].
    intros k Hk. discriminate Hk.
  - eexists. split; [done|]. apply commit_wf. split; apply Hwf.
Qed.

Lemma run_wf (evs : list Event) (w : World) :
  wf w → ∃ w', run evs w = Some w' ∧ wf w'.
Proof.
  revert w. induction evs as [|ev evs IH]; intros w Hwf; [by exists w|].
  simpl. destruct (step_wf ev w Hwf) as (w1 & -> & Hwf1). by apply IH.
Qed.
End sessions.

(** Between two frames the towers that exist are left as they are: a
    handler changes the tower array only by appending a new tower. *)
Lemma step_towers (ev : Event) (w w' : World) `{Math} :
  step ev w = Some w' → (∀ now rand, ev ≠ Frame now rand) →
  towers w' = towers w
  ∨ ∃ x y k, towers w' = towers w ++ [Tower.constructor x y k].
Proof.
  assert (∀ u u', towers (commit u u') = towers u') as Hcommit.
  { intros u u'. unfold commit. by destruct (sameDeps u u'). }
  destruct ev as [now rand|x y| | |k| |s]; simpl; intros Hstep Hev.
  - by destruct (Hev now rand).
  - unfold handleCanvasClick, addTower in Hstep.
    destruct (truthy (placingTower w)) as [k|]; simplify_eq/=;
      [|left; by rewrite Hcommit].
    destruct (towerTypes !! k) as [ty|]; simplify_eq/=.
    rewrite Hcommit. destruct (_ <=? _)%Z; simpl; [|by left].
    right. by exists x, y, k.
  - left. by simplify_eq.
  - left. by simplify_eq.
  - left. destruct (towerTypes !! k) as [ty|]; [|by simplify_eq].
    destruct (_ <? _)%Z; simplify_eq; [done|by rewrite Hcommit].
  - left. simplify_eq. by rewrite Hcommit.
  - left. simplify_eq. by rewrite Hcommit.
Qed.

(** ** Cooldown *)

Section cooldown.
Context `{Math}.

Lemma spaced_nil (gap start : Z) : spaced gap start [].
Proof.
  split; [constructor|]. intros i j t1 t2 _ Hi. by rewrite lookup_nil in Hi.
Qed.

Lemma spaced_earlier (gap start start' : Z) (times : list Z) :
  (start' <= start)%Z → spaced gap start times → spaced gap start' times.
Proof.
  intros Hle [Hall Hpair]. split; [|done].
  eapply Forall_impl; [exact Hall|]. intros t Ht. simpl in *. lia.
Qed.

Lemma spaced_cons (gap start now : Z) (times : list Z) :
  (0 <= gap)%Z → (gap < now - start)%Z → spaced gap now times →
  spaced gap start (now :: times).
Proof.
  intros Hgap Hnow [Hall Hpair]. split.
  - constructor; [done|]. eapply Forall_impl; [exact Hall|].
    intros t Ht. simpl in *. lia.
  - intros [|i] [|j] t1 t2 Hlt Hi Hj; simplify_eq/=; [lia| |lia|].
    + by apply (Forall_lookup_1 _ _ _ _ Hall Hj).
    + apply (Hpair i j); [lia|done..].
Qed.

Lemma firingTimes_spaced (ty : TowerType) (ticks : list Tick) :
  (0 <= attackSpeed ty)%Z →
  ∀ tower, towerTypes !! Tower.type tower = Some ty →
  ∃ times, firingTimes tower ticks = Some times
    ∧ spaced (attackSpeed ty) (Tower.lastShot tower) times.
Proof.
  intros Hpos. induction ticks as [|tk rest IH]; intros tower Hty.
  - exists []. split; [done|apply spaced_nil].
  - simpl.
    rewrite (towerAttack_registered _ _ _ _ _ _ ty) by done. simpl.
    destruct (list_find _ _) as [[j target]|].
    + destruct (Z.ltb_spec (attackSpeed ty)
                  (tickNow tk - Tower.lastShot tower)) as [Hcool|Hwait].
      * destruct (IH (Tower.shoot (tickNow tk) tower) Hty)
          as (times & -> & Hspaced). simpl in Hspaced.
        destruct (Qltb _ _); simpl.
        -- eexists. split; [done|]. by apply spaced_cons.
        -- eexists. split; [done|].
           apply (spaced_earlier _ (tickNow tk)); [lia|done].
      * destruct (IH tower Hty) as (times & -> & Hspaced). simpl.
        by eexists.
    + destruct (IH tower Hty) as (times & -> & Hspaced). simpl.
      by eexists.
Qed.

(** What a tower does in the loop depends on the random source only
    through the draw it consumes. *)
Lemma towerAttack_draw (now : Z) (rand : nat → Q) (dark : bool)
    (es : list Enemy.t) (tower : Tower.t) (k : nat) :
  (λ r, (r.1.1, r.1.2)) <$> towerAttack now rand dark es tower k
  = (λ r, (r.1.1, r.1.2))
      <$> towerAttack now (λ _, rand k) dark es tower 0.
Proof.
  unfold towerAttack.
  destruct (nearbyEnemy tower es) as [[[i target]|]|]; simpl; [|done..].
  destruct (Tower.canShoot now tower) as [[]|]; simpl; [|done..].
  by destruct (towerTypes !! Tower.type tower).
Qed.


(** The tower loop and its per-tower account agree. *)
Lemma volleys_registered (now : Z) (rand : nat → Q) (dark : bool)
    (es : list Enemy.t) (ts : list Tower.t) (k : nat) :
  Forall (λ tower, registered (Tower.type tower)) ts →
  ∃ ts' fired k' vs,
    towersAttack now rand dark es ts k = Some (ts', fired, k')
    ∧ volleys now rand dark es ts k = Some vs
    ∧ fired = concat vs
    ∧ length ts' = length ts
    ∧ length vs = length ts
    ∧ ∀ i tower, ts !! i = Some tower →
        ∃ ki tower' f kj,
          towerAttack now rand dark es tower ki = Some (tower', f, kj)
          ∧ ts' !! i = Some tower'
          ∧ vs !! i = Some f.
Proof.
  intros Hreg. revert k.
  induction Hreg as [|tower rest [ty Hty] Hrest IH]; intros k.
  - exists [], [], k, []. split_and!; [done..|].
    intros i tower Hi. by rewrite lookup_nil in Hi.
  - pose proof (towerAttack_registered now rand dark es tower k ty Hty)
      as Hone.
    destruct (match list_find _ es with Some _ => _ | None => _ end)
      as [[tower' f] k1] eqn:Hres in Hone.
    destruct (IH k1)
      as (rest' & more & k2 & vs & Hloop & Hvs & Hcat & Hlen & Hlenv & Hith).
    exists (tower' :: rest'), (f ++ more), k2, (f :: vs). split_and!.
    + simpl. rewrite Hone. simpl. by rewrite Hloop.
    + simpl. rewrite Hone. simpl. by rewrite Hvs.
    + simpl. by rewrite Hcat.
    + simpl. by rewrite Hlen.
    + simpl. by rewrite Hlenv.
    + intros [|i] t Hi; simplify_eq/=.
      * by exists k, tower', f, k1.
      * by apply Hith.
Qed.

Lemma towers_commit (w w' : World) : towers (commit w w') = towers w'.
Proof. unfold commit. by destruct (sameDeps w w'). Qed.

(** What a frame does to the tower at index [i]. *)
Lemma frame_tower (now : Z) (rand : nat → Q) (w : World) (i : nat) :
  wf w →
  ∃ w' vs,
    gameLoop now rand w = Some w'
    ∧ volleys now rand (isDarkMode w)
        (Enemy.update (gameSpeed w) <$> enemies w) (towers w) 0
      = Some vs
    ∧ match towers w !! i with
      | Some tower =>
          ∃ ki tower' f kj,
            towerAttack now rand (isDarkMode w)
              (Enemy.update (gameSpeed w) <$> enemies w) tower ki
            = Some (tower', f, kj)
            ∧ towers w' !! i = Some tower'
            ∧ vs !! i = Some f
      | None => towers w' !! i = None ∧ vs !! i = None
      end.
Proof.
  intros Hwf.
  destruct (combat_wf now rand w Hwf) as (ts & fired & k' & Hloop & _ & Hcombat).
  destruct (volleys_registered now rand (isDarkMode w)
              (Enemy.update (gameSpeed w) <$> enemies w) (towers w) 0
              (proj1 Hwf))
    as (ts2 & fired2 & k2 & vs & Hloop2 & Hvs & _ & Hlen & Hlenv & Hith).
  rewrite Hloop in Hloop2. simplify_eq.
  eexists _, vs. split; [by apply gameLoop_combat|]. split; [done|].
  simpl. destruct (towers w !! i) as [tower|] eqn:Hi.
  - by apply Hith.
  - apply lookup_ge_None in Hi. split; apply lookup_ge_None; lia.
Qed.

(** An event that is not a frame that runs pushes no projectile and leaves
    the existing towers as they are. *)
Lemma idle_step (i : nat) (ev : Event) (w w1 : World) :
  step ev w = Some w1 →
  (∀ now rand, ev = Frame now rand → frameRequested w = false) →
  stamps i ev w = Some []
  ∧ (towers w1 = towers w
     ∨ ∃ x y k, towers w1 = towers w ++ [Tower.constructor x y k]).
Proof.
  intros Hstep Hidle. destruct ev as [now rand|x y| | |k| |s].
  1: { simpl in *. rewrite (Hidle now rand eq_refl) in *.
       simplify_eq. by split; [|left]. }
  all: split; [done|]; by eapply step_towers.
Qed.

Lemma idle_step_lookup (i : nat) (ev : Event) (w w1 : World)
    (tower : Tower.t) :
  step ev w = Some w1 →
  (∀ now rand, ev = Frame now rand → frameRequested w = false) →
  towers w !! i = Some tower → towers w1 !! i = Some tower.
Proof.
  intros Hstep Hidle Hi.
  destruct (idle_step i ev w w1 Hstep Hidle) as [_ [->|(x & y & k & ->)]];
    [done|].
  by apply lookup_app_l_Some.
Qed.

(** The projectile times of an existing tower in a session are those of the
    tower alone over a sequence of ticks, and the tower keeps its type. *)
Lemma shotTimes_firingTimes (i : nat) (evs : list Event) :
  ∀ w tower, wf w → towers w !! i = Some tower →
  ∃ ticks w' tower',
    shotTimes i evs w = firingTimes tower ticks
    ∧ run evs w = Some w'
    ∧ towers w' !! i = Some tower'
    ∧ Tower.type tower' = Tower.type tower.
Proof.
  induction evs as [|ev rest IH]; intros w tower Hwf Hi.
  - by exists [], w, tower.
  - destruct (step_wf ev w Hwf) as (w1 & Hstep & Hwf1).
    assert ((∀ now rand, ev = Frame now rand → frameRequested w = false)
            ∨ ∃ now rand, ev = Frame now rand ∧ frameRequested w = true)
      as [Hidle|(now & rand & -> & Hon)].
    { destruct ev as [now rand|x y| | |k| |s]; try by left.
      destruct (frameRequested w) eqn:Hon; [right; by exists now, rand|].
      by left. }
    + destruct (idle_step i ev w w1 Hstep Hidle) as [Hstamp _].
      destruct (IH w1 tower Hwf1)
        as (ticks & w' & tower' & Hrest & Hrun & Hi' & Hty);
        [by eapply idle_step_lookup|].
      exists ticks, w', tower'. cbn [shotTimes run].
      rewrite Hstamp, Hstep. simpl. rewrite Hrest, Hrun.
      split_and!; [|done..]. by destruct (firingTimes tower ticks).
    + destruct (frame_tower now rand w i Hwf) as (w2 & vs & Hloop & Hvs & Hith).
      rewrite Hi in Hith.
      destruct Hith as (ki & tower1 & f & kj & Hatk & Hi2 & Hf).
      simpl in Hstep. rewrite Hon, Hloop in Hstep. simplify_eq/=.
      destruct (IH (commit w w2) tower1 Hwf1)
        as (ticks & w' & tower' & Hrest & Hrun & Hi' & Hty);
        [by rewrite towers_commit|].
      exists (mkTick now (gameSpeed w) (enemies w) (isDarkMode w) (rand ki)
                :: ticks), w', tower'.
      rewrite Hon, Hvs, Hloop. simpl. rewrite Hrest, Hrun, Hf.
      pose proof (towerAttack_draw now rand (isDarkMode w)
                    (Enemy.update (gameSpeed w) <$> enemies w) tower ki)
        as Hdraw.
      rewrite Hatk in Hdraw. simpl in Hdraw.
      destruct (towerAttack now (λ _, rand ki) _ _ tower 0)
        as [[[tower2 f2] k2]|]; simplify_eq/=.
      split_and!; [|done..|].
      * destruct (firingTimes _ ticks); simpl; [|done].
        by match goal with |- context [if ?f is [] then _ else _] =>
             destruct f end.
      * rewrite Hty. by eapply towerAttack_type.
Qed.

(** A tower that does not exist yet pushes nothing until a click creates
    it, with [lastShot = 0]. *)
Lemma shotTimes_absent (i : nat) (evs : list Event) :
  ∀ w, wf w → towers w !! i = None →
  ∃ w', run evs w = Some w'
    ∧ ((shotTimes i evs w = Some [] ∧ towers w' !! i = None)
       ∨ ∃ fresh ticks tower',
           Tower.lastShot fresh = 0%Z
           ∧ shotTimes i evs w = firingTimes fresh ticks
           ∧ towers w' !! i = Some tower'
           ∧ Tower.type tower' = Tower.type fresh).
Proof.
  induction evs as [|ev rest IH]; intros w Hwf Hi.
  - exists w. split; [done|]. by left.
  - destruct (step_wf ev w Hwf) as (w1 & Hstep & Hwf1).
    assert (stamps i ev w = Some []
            ∧ (towers w1 !! i = None
               ∨ ∃ x y k, towers w1 !! i = Some (Tower.constructor x y k)))
      as [Hstamp Hi1].
    { assert ((∀ now rand, ev = Frame now rand → frameRequested w = false)
              ∨ ∃ now rand, ev = Frame now rand ∧ frameRequested w = true)
        as [Hidle|(now & rand & -> & Hon)].
      { destruct ev as [now rand|x y| | |k| |s]; try by left.
        destruct (frameRequested w) eqn:Hon; [right; by exists now, rand|].
        by left. }
      - destruct (idle_step i ev w w1 Hstep Hidle)
          as [Hstamp [->|(x & y & k & ->)]]; (split; [done|]); [by left|].
        destruct (decide (i = length (towers w))) as [->|Hne].
        + right. exists x, y, k. by rewrite list_lookup_middle.
        + left. apply lookup_ge_None in Hi. apply lookup_ge_None.
          rewrite length_app. simpl. lia.
      - destruct (frame_tower now rand w i Hwf) as (w2 & vs & Hloop & Hvs & Hith).
        rewrite Hi in Hith. destruct Hith as [Hi2 Hf].
        simpl in Hstep. rewrite Hon, Hloop in Hstep. simplify_eq/=.
        rewrite Hon, Hvs. simpl. rewrite Hf, towers_commit. by split; [|left]. }
    cbn [shotTimes run]. rewrite Hstamp, Hstep. simpl.
    destruct Hi1 as [Hi1|(x & y & k & Hi1)].
    + destruct (IH w1 Hwf1 Hi1) as (w' & Hrun & Hrest). exists w'.
      split; [done|].
      destruct Hrest as [[-> Hnone]|(fresh & ticks & tower' & H0 & -> & Hsome)].
      * by left.
      * right. exists fresh, ticks, tower'. split_and!; [done| |apply Hsome..].
        by destruct (firingTimes fresh ticks).
    + destruct (shotTimes_firingTimes i rest w1 _ Hwf1 Hi1)
        as (ticks & w' & tower' & -> & Hrun & Hi' & Hty).
      exists w'. split; [done|]. right.
      exists (Tower.constructor x y k), ticks, tower'.
      split_and!; [done| |done..].
      by destruct (firingTimes _ ticks).
Qed.

(** In a session the projectile times of the tower at any index are more
    than its [attackSpeed] apart. *)
Lemma shotTimes_spaced (i : nat) (evs : list Event) (w : World) :
  wf w →
  ∃ times w',
    shotTimes i evs w = Some times
    ∧ run evs w = Some w'
    ∧ (towers w' !! i = None → times = [])
    ∧ ∀ tower ty,
        towers w' !! i = Some tower →
        towerTypes !! Tower.type tower = Some ty →
        ∀ a b t1 t2, a < b → times !! a = Some t1 → times !! b = Some t2 →
          (attackSpeed ty < t2 - t1)%Z.
Proof.
  intros Hwf.
  assert (∀ fresh ticks w' tower',
            run evs w = Some w' → towers w' !! i = Some tower' →
            Tower.type tower' = Tower.type fresh →
            shotTimes i evs w = firingTimes fresh ticks →
            ∃ times, shotTimes i evs w = Some times
              ∧ ∀ tower ty,
                  towers w' !! i = Some tower →
                  towerTypes !! Tower.type tower = Some ty →
                  ∀ a b t1 t2, a < b → times !! a = Some t1 →
                    times !! b = Some t2 → (attackSpeed ty < t2 - t1)%Z)
    as Halone.
  { intros fresh ticks w' tower' Hrun Hi' Hty Htimes.
    destruct (run_wf evs w Hwf) as (w2 & Hrun2 & [Hreg _]).
    rewrite Hrun in Hrun2. simplify_eq.
    destruct (Forall_lookup_1 _ _ _ _ Hreg Hi') as [ty0 Hty0].
    destruct (firingTimes_spaced ty0 ticks) with (tower := fresh)
      as (times & Hfire & _ & Hpair).
    { pose proof (attackSpeed_pos _ _ Hty0). lia. }
    { by rewrite <- Hty. }
    exists times. split; [by rewrite Htimes|].
    intros tower ty Hi2 Hty2. by simplify_eq. }
  destruct (towers w !! i) as [tower|] eqn:Hi.
  - destruct (shotTimes_firingTimes i evs w tower Hwf Hi)
      as (ticks & w' & tower' & Htimes & Hrun & Hi' & Hty).
    destruct (Halone tower ticks w' tower' Hrun Hi' Hty Htimes)
      as (times & Hsome & Hpair).
    exists times, w'. split_and!; [done..| |done].
    intros Hnone. by rewrite Hnone in Hi'.
  - destruct (shotTimes_absent i evs w Hwf Hi)
      as (w' & Hrun & [[Htimes Hnone]|(fresh & ticks & tower' & _ & Htimes & Hi' & Hty)]).
    + exists [], w'. split_and!; [done..|].
      intros tower ty Hsome. by rewrite Hnone in Hsome.
    + destruct (Halone fresh ticks w' tower' Hrun Hi' Hty Htimes)
        as (times & Hsome & Hpair).
      exists times, w'. split_and!; [done..| |done].
      intros Hnone. by rewrite Hnone in Hi'.
Qed.

(** C2, as the TypeScript component has it, with what the older component
    does instead. In every session from a well-formed state (any clock
    readings, any changes of the speed multiplier, any enemies, any accuracy
    draws) two projectiles pushed by the same tower are created more than
    its [attackSpeed] milliseconds apart; the same holds for a tower alone
    over any sequence of ticks; and its cooldown test reads the clock,
    [lastShot] and [attackSpeed] only. The cooldown test of the older
    component is [now - lastShot > 1000 / gameSpeed]. *)
Theorem projectiles_one_cooldown_apart (i : nat) (evs : list Event)
    (w : World) :
  wf w →
  (∃ times w',
     shotTimes i evs w = Some times
     ∧ run evs w = Some w'
     ∧ (towers w' !! i = None → times = [])
     ∧ ∀ tower ty,
         towers w' !! i = Some tower →
         towerTypes !! Tower.type tower = Some ty →
         ∀ a b t1 t2, a < b → times !! a = Some t1 → times !! b = Some t2 →
           (attackSpeed ty < t2 - t1)%Z)
  ∧ (∀ tower ty ticks,
       towerTypes !! Tower.type tower = Some ty →
       ∃ times, firingTimes tower ticks = Some times
         ∧ ∀ a b t1 t2, a < b → times !! a = Some t1 → times !! b = Some t2 →
             (attackSpeed ty < t2 - t1)%Z)
  ∧ (∀ tower ty now,
       towerTypes !! Tower.type tower = Some ty →
       Tower.canShoot now tower
       = Some (attackSpeed ty <? now - Tower.lastShot tower)%Z)
  ∧ (∀ now gameSpeed (old : Legacy.Tower),
       Legacy.canShoot now gameSpeed old = true ↔
       (1000 / gameSpeed < inject_Z (now - Legacy.lastShot old))%Q).
Proof.
  intros Hwf. split_and!.
  - by apply shotTimes_spaced.
  - intros tower ty ticks Hty.
    destruct (firingTimes_spaced ty ticks) with (tower := tower)
      as (times & Hrun & _ & Hpair); [|done|by exists times].
    pose proof (attackSpeed_pos _ _ Hty). lia.
  - intros tower ty now Hty. unfold Tower.canShoot. by rewrite Hty.
  - intros now gameSpeed old. apply Qltb_lt.
Qed.
End cooldown.

(** Two ticks of the older component at speed 2, 501 ms apart, each of which
    pushes a projectile of the same tower: less than the 1000 ms that
    separate its projectiles at speed 1, the cooldown test having passed at
    speed 2 where it fails at speed 1. *)
Lemma legacy_cooldown_scales_with_speed :
  Legacy.firingTimes (H := mathDown) (Legacy.mkTower 100 200 "basic" 0)
    [(501%Z, 2%Q, [Legacy.mkEnemy 40 200 100 100 10], 0%Q);
     (1002%Z, 2%Q, [Legacy.mkEnemy 40 200 100 100 10], 0%Q)]
  = Some [501%Z; 1002%Z]
  ∧ ¬ (1000 < 1002 - 501)%Z
  ∧ Legacy.canShoot 1002 2 (Legacy.mkTower 100 200 "basic" 501) = true
  ∧ Legacy.canShoot 1002 1 (Legacy.mkTower 100 200 "basic" 501) = false.
Proof. split_and!; [by vm_compute|lia|by vm_compute|by vm_compute]. Qed.

(** ** Game over *)

Section game_over.
Context `{Math}.

(** The movement, attack, projectile and removal steps never read
    [lives]. *)
Lemma combat_ignores_lives (now : Z) (rand : nat → Q) (w : World) (l : Z) :
  combat now rand
    (mkWorld (gold w) l (gameSpeed w) (placingTower w) (isDarkMode w)
       (towers w) (enemies w) (projectiles w) (frameRequested w) (alerts w))
  = combat now rand w.
Proof. reflexivity. Qed.

(** The only use of [lives]: at the end of the tick, the value the tick
    started with decides whether the next frame is requested. A tick
    never raises [lives]. *)
Lemma gameLoop_schedule (now : Z) (rand : nat → Q) (w w' : World) :
  gameLoop now rand w = Some w' →
  frameRequested w' = negb (lives w <=? 0)%Z
  ∧ alerts w' = (if (lives w <=? 0)%Z then S (alerts w) else alerts w)
  ∧ (lives w' <= lives w)%Z.
Proof.
  unfold gameLoop. intros Hrun.
  destruct (combat now rand w) as [[[ts es] ps]|]; simplify_eq/=.
  split_and!; [done..|].
  destruct (0 <? _)%Z eqn:Hpaid; [|lia]. apply Z.ltb_lt in Hpaid. lia.
Qed.

Lemma lives_commit (w w' : World) : lives (commit w w') = lives w'.
Proof. unfold commit. by destruct (sameDeps w w'). Qed.

(** No event raises [lives]: once it is 0 or less it stays so for the rest
    of the session. *)
Lemma step_lives (ev : Event) (w w' : World) :
  step ev w = Some w' → (lives w' <= lives w)%Z.
Proof.
  destruct ev as [now rand|x y| | |k| |s]; simpl; intros Hstep.
  - destruct (frameRequested w); [|by simplify_eq].
    destruct (gameLoop now rand w) as [w1|] eqn:Hloop; simplify_eq/=.
    rewrite lives_commit. by apply (gameLoop_schedule now rand).
  - unfold handleCanvasClick, addTower in Hstep.
    destruct (truthy (placingTower w)) as [k|]; simplify_eq/=;
      [|by rewrite lives_commit].
    destruct (towerTypes !! k) as [ty|]; simplify_eq/=.
    rewrite lives_commit. by destruct (_ <=? _)%Z.
  - by simplify_eq.
  - by simplify_eq.
  - destruct (towerTypes !! k) as [ty|]; [|by simplify_eq].
    destruct (_ <? _)%Z; simplify_eq; [done|by rewrite lives_commit].
  - simplify_eq. by rewrite lives_commit.
  - simplify_eq. by rewrite lives_commit.
Qed.

Lemma run_lives (evs : list Event) (w w' : World) :
  run evs w = Some w' → (lives w' <= lives w)%Z.
Proof.
  revert w. induction evs as [|ev evs IH]; intros w Hrun; simplify_eq/=;
    [done|].
  destruct (step ev w) as [w1|] eqn:Hstep; simplify_eq/=.
  pose proof (step_lives _ _ _ Hstep). pose proof (IH _ Hrun). lia.
Qed.

(** A tick that starts with [lives <= 0] requests no frame itself. *)
Lemma gameLoop_over (now : Z) (rand : nat → Q) (w w' : World) :
  (lives w <= 0)%Z → gameLoop now rand w = Some w' →
  frameRequested w' = false ∧ alerts w' = S (alerts w).
Proof.
  intros Hover Hrun.
  destruct (gameLoop_schedule _ _ _ _ Hrun) as (-> & -> & _).
  by destruct (Z.leb_spec (lives w) 0); [|lia].
Qed.
End game_over.

(** C7, as the code runs. In a session from the initial state, the tick in
    which the twenty enemies leave the track brings [lives] from 20 to 0 and
    itself requests the next frame (its own [lives] is still 20); the next
    tick, run with [lives = 0], moves the remaining enemy before it alerts
    and stops; a later mouse move re-runs the effect and one more full tick
    follows. From [lastLife] the tick run with [lives = 0] also moves the
    projectile in flight, and a tick run with [lives = 0] in which an enemy
    leaves the track still pays 10 gold and takes a life. *)
Theorem game_over_one_tick_late :
  shown <$> run (H := mathDown) rout initialWorld
  = Some (200%Z, 20%Z, replicate 20 198%Q ++ [98%Q], [], true, 0)
  ∧ shown <$> (run (H := mathDown) rout initialWorld
               ≫= gameLoop (H := mathDown) 6584 (λ _, 0%Q))
    = Some (400%Z, 0%Z, [100%Q], [], true, 0)
  ∧ shown <$> run (H := mathDown) (rout ++ frames 2 6584) initialWorld
    = Some (400%Z, 0%Z, [102%Q], [], false, 1)
  ∧ shown <$> run (H := mathDown) (rout ++ frames 3 6584) initialWorld
    = Some (400%Z, 0%Z, [102%Q], [], false, 1)
  ∧ shown <$> run (H := mathDown)
      (rout ++ frames 2 6584 ++ [MouseMove] ++ frames 1 6616) initialWorld
    = Some (400%Z, 0%Z, [104%Q], [], false, 2)
  ∧ shown <$> gameLoop (H := mathDown) 5000 (λ _, 0%Q) lastLife
    = Some (350%Z, 0%Z, [11%Q], [95%Q], true, 0)
  ∧ shown <$> run (H := mathDown) (frames 2 5000) lastLife
    = Some (350%Z, 0%Z, [12%Q], [90%Q], false, 1)
  ∧ shown <$> gameLoop (H := mathDown) 5048 (λ _, 0%Q)
      (mkWorld 350 0 1 None false []
         [Enemy.mk 796 200 300 300 199 spawnResistances] [] true 1)
    = Some (360%Z, (-1)%Z, [], [], false, 2).
Proof. split_and!; by vm_compute. Qed.

(** ** Instances on concrete states *)

(** [hypotDown] is exact on the distances the instances below use. *)
Example hypotDown_exact :
  (hypotDown 3 4 == 5)%Q ∧ (hypotDown (-56) 0 == 56)%Q
  ∧ (hypotDown 0 (-7.5) == 7.5)%Q.
Proof. split_and!; reflexivity. Qed.

Lemma skirmish_wf : wf skirmish.
Proof.
  split.
  - repeat constructor. by exists basic.
  - intros k Hk. discriminate Hk.
Qed.

(** With a draw of 1 every shot of the tick misses: the tower still ends the
    tick with [lastShot = now]. *)
Lemma lastShot_reset_on_attempt_witness :
  (∃ w', gameLoop (H := mathDown) 5000 (λ _, 1%Q) skirmish = Some w'
     ∧ towers w' !! 0 = Some (Tower.shoot 5000 guard))
  ∧ Tower.lastShot (Tower.shoot 5000 guard) = 5000%Z
  ∧ ∀ k, ∃ target,
      towerAttack (H := mathDown) 5000 (λ _, 1%Q) false
        (Enemy.update 1 <$> [walker]) guard k
      = Some (Tower.shoot 5000 guard,
              if Qltb 1 (accuracy basic)
              then [shot basic false guard target] else [],
              S k).
Proof.
  apply (lastShot_reset_on_attempt (H := mathDown) 5000 (λ _, 1%Q) skirmish 0
           guard basic (Enemy.update 1 walker)).
  - exact skirmish_wf.
  - reflexivity.
  - reflexivity.
  - apply list_elem_of_here.
  - by vm_compute.
  - by vm_compute.
  - simpl. lia.
Defined.

Lemma new_tower_off_cooldown_witness :
  Tower.lastShot (Tower.constructor 100 200 "basic") = 0%Z
  ∧ Tower.canShoot 5000 (Tower.constructor 100 200 "basic") = Some true
  ∧ ∃ target,
      towerAttack (H := mathDown) 5000 (λ _, 0%Q) false [walker]
        (Tower.constructor 100 200 "basic") 0
      = Some (Tower.shoot 5000 (Tower.constructor 100 200 "basic"),
              if Qltb 0 (accuracy basic)
              then [shot basic false (Tower.constructor 100 200 "basic")
                      target]
              else [],
              1).
Proof.
  destruct (new_tower_off_cooldown (H := mathDown) 100 200 "basic" basic 5000)
    as (Hzero & Hready & Hattempt); [reflexivity|simpl; lia|].
  split; [exact Hzero|]. split; [exact Hready|].
  apply (Hattempt (λ _, 0%Q) false [walker] 0 walker).
  - apply list_elem_of_here.
  - by vm_compute.
  - by vm_compute.
Defined.

(** Two live enemies in range of the tower, the first 90 away and the second
    10 away: the target is the first one. *)
Lemma target_is_first_in_range_witness :
  nearbyEnemy (H := mathDown) guard
    [Enemy.mk 10 200 300 300 0 spawnResistances;
     Enemy.mk 90 200 300 300 0 spawnResistances]
  = Some (Some (0, Enemy.mk 10 200 300 300 0 spawnResistances)).
Proof.
  apply (target_is_first_in_range (H := mathDown) guard basic
           [Enemy.mk 10 200 300 300 0 spawnResistances;
            Enemy.mk 90 200 300 300 0 spawnResistances]);
    [reflexivity|].
  split; [reflexivity|]. split; [split; by vm_compute|].
  intros j e _ Hj. lia.
Defined.

(** A session at half speed: a basic tower is bought and put next to the
    track, an enemy is spawned, and five frames follow 600 ms apart. *)
Lemma projectiles_one_cooldown_apart_witness :
  ∃ times w',
    shotTimes (H := mathDown) 0 ambush initialWorld = Some times
    ∧ run (H := mathDown) ambush initialWorld = Some w'
    ∧ (towers w' !! 0 = None → times = [])
    ∧ ∀ tower ty,
        towers w' !! 0 = Some tower →
        towerTypes !! Tower.type tower = Some ty →
        ∀ a b t1 t2, a < b → times !! a = Some t1 → times !! b = Some t2 →
          (attackSpeed ty < t2 - t1)%Z.
Proof.
  apply (projectiles_one_cooldown_apart (H := mathDown) 0 ambush initialWorld).
  exact initialWorld_wf.
Defined.

(** The projectile times of that session: the frames at 5600 and 6800 fall
    within the cooldown. *)
Example ambush_times :
  shotTimes (H := mathDown) 0 ambush initialWorld
  = Some [5000%Z; 6200%Z; 7400%Z].
Proof. by vm_compute. Qed.

Lemma removal_gold_and_lives_witness :
  ∃ w' ts es ps removedCount,
    combat (H := mathDown) 5000 (λ _, 0%Q) lastLife = Some (ts, es, ps)
    ∧ gameLoop (H := mathDown) 5000 (λ _, 0%Q) lastLife = Some w'
    ∧ enemies w' = filter (λ e, Is_true (survives e)) es
    ∧ (∀ e, e ∈ es →
         (e ∉ enemies w' ↔
          (Enemy.health e <= 0)%Q ∨ (200 <= Enemy.progress e)%Q))
    ∧ removedCount = length (filter (λ e, Is_true (negb (survives e))) es)
    ∧ length es = length (enemies w') + removedCount
    ∧ gold w' = (gold lastLife + 10 * Z.of_nat removedCount)%Z
    ∧ lives w' = (lives lastLife - 1 * Z.of_nat removedCount)%Z.
Proof.
  apply (removal_gold_and_lives (H := mathDown) 5000 (λ _, 0%Q) lastLife).
  split.
  - repeat constructor. by exists basic.
  - intros k Hk. discriminate Hk.
Defined.

(** The tick of the witness above, evaluated: one enemy leaves the track,
    10 gold is paid and a life is lost. *)
Example removal_on_leak :
  shown <$> gameLoop (H := mathDown) 5000 (λ _, 0%Q) lastLife
  = Some (350%Z, 0%Z, [11%Q], [95%Q], true, 0).
Proof. by vm_compute. Qed.

(** An enemy killed by an impact is removed in the same tick and paid like a
    leak. *)
Example removal_on_death :
  (λ w, (gold w, lives w, length (enemies w)))
    <$> gameLoop (H := mathDown) 5000 (λ _, 1%Q)
          (mkWorld 200 20 1 None false []
             [Enemy.mk 40 200 4 300 10 spawnResistances]
             [Projectile.mk 44 200 44 200 10 "black" "fire"] true 0)
  = Some (210%Z, 19%Z, 0).
Proof. by vm_compute. Qed.

(** A projectile of a splash tower that arrives where two live enemies
    stand damages the first of them only. *)
Example splash_hits_one_enemy :
  Qred ∘ Enemy.health
    <$> impact (H := mathDown)
          (shot splash false (Tower.constructor 100 200 "splash") walker)
          [walker; walker]
  = [282%Q; 300%Q].
Proof. by vm_compute. Qed.

(** ** The damage arithmetic in binary64

    [takeDamage] on the kernel's binary64 floats, the numbers JavaScript
    computes with: for the resistances of [spawnEnemy] and the damage of the
    three tower types every hit takes an integer off [health], with no
    rounding error, so the rational model and the running code agree. *)
Section Binary64.
Local Open Scope float_scope.

Example basic_hit64 : takeDamage64 10 fire64 300 = 292.
Proof. reflexivity. Qed.

Example sniper_hit64 : takeDamage64 30 0 300 = 270.
Proof. reflexivity. Qed.

Example splash_hit64 : takeDamage64 20 electric64 300 = 282.
Proof. reflexivity. Qed.

(** 38 hits of a basic tower take an enemy from 300 to -4. *)
Example basic_hits64 : Nat.iter 38 (takeDamage64 10 fire64) 300 = -4.
Proof. reflexivity. Qed.
End Binary64.


(** * Further properties *)

(** ** Economy over a session *)

Lemma gold_commit (w w' : World) : gold (commit w w') = gold w'.
Proof. unfold commit. by destruct (sameDeps w w'). Qed.

Lemma placingTower_commit (w w' : World) :
  placingTower (commit w w') = placingTower w'.
Proof. unfold commit. by destruct (sameDeps w w'). Qed.

Lemma frameRequested_commit (w w' : World) :
  frameRequested w' = true → frameRequested (commit w w') = true.
Proof. unfold commit. by destruct (sameDeps w w'). Qed.

Lemma alerts_commit (w w' : World) : alerts (commit w w') = alerts w'.
Proof. unfold commit. by destruct (sameDeps w w'). Qed.

Section economy_sessions.
Context `{Math}.

(** A tick never takes gold and never changes the placement selection. *)
Lemma gameLoop_gold (now : Z) (rand : nat → Q) (w w' : World) :
  gameLoop now rand w = Some w' →
  (gold w <= gold w')%Z ∧ placingTower w' = placingTower w.
Proof.
  unfold gameLoop. intros Hrun.
  destruct (combat now rand w) as [[[ts es] ps]|]; simplify_eq/=.
  split; [|done].
  destruct (0 <? _)%Z eqn:Hpaid; [|lia]. apply Z.ltb_lt in Hpaid. lia.
Qed.

Lemma step_gold (ev : Event) (w w' : World) :
  step ev w = Some w' →
  ((0 <= gold w)%Z → (0 <= gold w')%Z) ∧ (affordable w → affordable w').
Proof.
  destruct ev as [now rand|x y| | |k| |s]; simpl; intros Hstep.
  - destruct (frameRequested w); [|by simplify_eq].
    destruct (gameLoop now rand w) as [w1|] eqn:Hloop; simplify_eq/=.
    destruct (gameLoop_gold _ _ _ _ Hloop) as [Hgold Hsel].
    rewrite gold_commit. split; [lia|].
    intros Hok k ty. rewrite placingTower_commit, Hsel, gold_commit.
    intros Hk Hty. specialize (Hok k ty Hk Hty). lia.
  - unfold handleCanvasClick, addTower in Hstep.
    destruct (truthy (placingTower w)) as [k|] eqn:Hk; simplify_eq/=.
    + destruct (towerTypes !! k) as [ty|]; simplify_eq/=.
      rewrite gold_commit. split.
      * destruct (Z.leb_spec (cost ty) (gold w)); simpl; lia.
      * intros _ k' ty'. by rewrite placingTower_commit.
    + rewrite gold_commit. split; [done|].
      intros Hok k ty. rewrite placingTower_commit, gold_commit. apply Hok.
  - by simplify_eq.
  - by simplify_eq.
  - destruct (towerTypes !! k) as [ty|] eqn:Hty; [|by simplify_eq].
    destruct (Z.ltb_spec (gold w) (cost ty)); simplify_eq; [done|].
    rewrite gold_commit. split; [done|].
    intros _ k' ty'. rewrite placingTower_commit, gold_commit. simpl.
    case_decide; intros [= <-] Hty'. simplify_eq. done.
  - simplify_eq. rewrite gold_commit. split; [done|].
    intros _ k ty. by rewrite placingTower_commit.
  - simplify_eq. rewrite gold_commit. split; [done|].
    intros Hok k ty. rewrite placingTower_commit, gold_commit. apply Hok.
Qed.

Lemma run_gold (evs : list Event) (w w' : World) :
  run evs w = Some w' →
  ((0 <= gold w)%Z → (0 <= gold w')%Z) ∧ (affordable w → affordable w').
Proof.
  revert w. induction evs as [|ev evs IH]; intros w Hrun; simplify_eq/=;
    [done|].
  destruct (step ev w) as [w1|] eqn:Hstep; simplify_eq/=.
  destruct (step_gold _ _ _ Hstep) as [Hg1 Ha1].
  destruct (IH _ Hrun) as [Hg2 Ha2]. split; auto.
Qed.

(** X1. Gold never goes negative: from a well-formed state with
    [gold >= 0], every session runs and ends with [gold >= 0], since
    [addTower] pays only what the gold covers and a tick only adds. *)
Theorem gold_never_negative (evs : list Event) (w : World) :
  wf w → (0 <= gold w)%Z →
  ∃ w', run evs w = Some w' ∧ (0 <= gold w')%Z.
Proof.
  intros Hwf Hgold. destruct (run_wf evs w Hwf) as (w' & Hrun & _).
  exists w'. split; [done|]. by apply (run_gold evs w w' Hrun).
Qed.

(** X2. Through the buttons a placement is never refused: after any session
    from the initial state, if a tower type is selected then gold covers its
    cost, and a click on the canvas adds exactly one tower of that type at
    the click position, pays the cost and leaves placement mode. *)
Theorem placement_never_refused (evs : list Event) (x y : Q) :
  ∃ w', run evs initialWorld = Some w'
    ∧ ∀ k, truthy (placingTower w') = Some k →
        ∃ ty w'',
          towerTypes !! k = Some ty
          ∧ (cost ty <= gold w')%Z
          ∧ handleCanvasClick x y w' = Some w''
          ∧ towers w'' = towers w' ++ [Tower.constructor x y k]
          ∧ gold w'' = (gold w' - cost ty)%Z
          ∧ placingTower w'' = None.
Proof.
  destruct (run_wf evs initialWorld initialWorld_wf) as (w' & Hrun & Hwf).
  exists w'. split; [done|]. intros k Hk.
  destruct (proj2 Hwf k Hk) as [ty Hty].
  assert (affordable w') as Hok.
  { apply (run_gold evs initialWorld w' Hrun). intros k' ty' Hk'.
    discriminate Hk'. }
  specialize (Hok k ty Hk Hty).
  exists ty. eexists. split; [done|]. split; [done|].
  unfold handleCanvasClick. rewrite Hk.
  rewrite (addTower_registered x y k ty w' Hty).
  split; [reflexivity|].
  by destruct (Z.leb_spec (cost ty) (gold w')); [|lia].
Qed.
End economy_sessions.

(** X3. A second click places nothing: after a click on the canvas has been
    handled, another click anywhere leaves the state as it is; and a click
    outside placement mode changes nothing in the first place. *)
Theorem second_click_is_noop (x y x' y' : Q) (w w1 : World) :
  handleCanvasClick x y w = Some w1 →
  handleCanvasClick x' y' w1 = Some w1
  ∧ (truthy (placingTower w) = None → w1 = w).
Proof.
  unfold handleCanvasClick, addTower. intros Hclick.
  destruct (truthy (placingTower w)) as [k|] eqn:Hk.
  - destruct (towerTypes !! k) as [ty|]; simplify_eq/=. done.
  - simplify_eq. by rewrite Hk.
Qed.

Lemma second_click_is_noop_witness :
  handleCanvasClick 300 40
    (setPlacingTower None
       (setGold (λ prev, prev - 50)%Z
          (pushTower (Tower.constructor 100 200 "basic")
             (setPlacingTower (Some "basic") initialWorld))))
  = Some
      (setPlacingTower None
         (setGold (λ prev, prev - 50)%Z
            (pushTower (Tower.constructor 100 200 "basic")
               (setPlacingTower (Some "basic") initialWorld)))).
Proof.
  apply (second_click_is_noop 100 200 300 40
           (setPlacingTower (Some "basic") initialWorld)).
  reflexivity.
Defined.

Lemma gold_never_negative_witness :
  ∃ w', run (H := mathDown) ambush initialWorld = Some w' ∧ (0 <= gold w')%Z.
Proof.
  apply (gold_never_negative (H := mathDown) ambush initialWorld).
  - exact initialWorld_wf.
  - simpl. lia.
Defined.

(** ** Lives, alerts and scheduling over a session *)

Section lives_sessions.
Context `{Math}.

(** Closes the case of an event that leaves lives, alerts and the frame
    request as they were. *)
Ltac unchanged := intuition (first [lia | congruence]).

Lemma step_alerts (ev : Event) (w w' : World) :
  step ev w = Some w' →
  (lives w' <= lives w)%Z
  ∧ alerts w <= alerts w'
  ∧ ((0 < lives w)%Z → alerts w' = alerts w)
  ∧ (frameRequested w = true ∨ (lives w <= 0)%Z →
     frameRequested w' = true ∨ (lives w' <= 0)%Z).
Proof.
  intros Hstep. pose proof (step_lives _ _ _ Hstep) as Hlives.
  split; [done|].
  destruct ev as [now rand|x y| | |k| |s]; simpl in Hstep.
  - destruct (frameRequested w) eqn:Hon; [|simplify_eq; unchanged].
    destruct (gameLoop now rand w) as [w1|] eqn:Hloop; simplify_eq/=.
    destruct (gameLoop_schedule _ _ _ _ Hloop) as (Hframe & Halerts & Hle).
    rewrite alerts_commit, Halerts.
    destruct (Z.leb_spec (lives w) 0) as [Hover|Hplay]; simpl in *.
    + split; [lia|]. split; [lia|]. intros _. right. lia.
    + split; [lia|]. split; [done|]. intros _. left.
      by apply frameRequested_commit.
  - unfold handleCanvasClick, addTower in Hstep.
    destruct (truthy (placingTower w)) as [k|]; simplify_eq/=.
    + destruct (towerTypes !! k) as [ty|]; simplify_eq/=.
      rewrite alerts_commit. rewrite lives_commit in *.
      destruct (cost ty <=? gold w)%Z; simpl in *.
      all: split; [done|]; split; [done|]; intros [Hon|Hover]; [|by right].
      all: left; by apply frameRequested_commit.
    + rewrite alerts_commit. rewrite lives_commit in *.
      split; [done|]. split; [done|]. intros [Hon|Hover]; [left|by right].
      by apply frameRequested_commit.
  - simplify_eq. simpl. unchanged.
  - simplify_eq. simpl. unchanged.
  - destruct (towerTypes !! k) as [ty|]; [|simplify_eq; unchanged].
    destruct (_ <? _)%Z; simplify_eq; [unchanged|].
    rewrite alerts_commit. rewrite lives_commit in *.
    split; [done|]. split; [done|]. intros [Hon|Hover]; [left|by right].
    by apply frameRequested_commit.
  - simplify_eq. rewrite alerts_commit. rewrite lives_commit in *.
    split; [done|]. split; [done|]. intros [Hon|Hover]; [left|by right].
    by apply frameRequested_commit.
  - simplify_eq. rewrite alerts_commit. rewrite lives_commit in *.
    split; [done|]. split; [done|]. intros [Hon|Hover]; [left|by right].
    by apply frameRequested_commit.
Qed.

Lemma run_alerts (evs : list Event) (w w' : World) :
  run evs w = Some w' →
  (lives w' <= lives w)%Z
  ∧ alerts w <= alerts w'
  ∧ ((0 < lives w')%Z → alerts w' = alerts w)
  ∧ (frameRequested w = true ∨ (lives w <= 0)%Z →
     frameRequested w' = true ∨ (lives w' <= 0)%Z).
Proof.
  revert w. induction evs as [|ev evs IH]; intros w Hrun; simplify_eq/=.
  { split_and!; [lia|lia|done|done]. }
  destruct (step ev w) as [w1|] eqn:Hstep; simplify_eq/=.
  destruct (step_alerts _ _ _ Hstep) as (Hl1 & Ha1 & Hq1 & Hf1).
  destruct (IH _ Hrun) as (Hl2 & Ha2 & Hq2 & Hf2).
  split_and!; [lia|lia| |by auto].
  intros Hplay. rewrite Hq2 by done. apply Hq1. lia.
Qed.

(** X4. Lives never rise and Game Over is never shown while lives remain:
    every session from a well-formed state runs, ends with [lives] no higher
    and the alert count no lower than at the start, and if lives are still
    positive at the end then no alert was shown during the session. *)
Theorem lives_never_rise (evs : list Event) (w : World) :
  wf w →
  ∃ w', run evs w = Some w'
    ∧ (lives w' <= lives w)%Z
    ∧ alerts w <= alerts w'
    ∧ ((0 < lives w')%Z → alerts w' = alerts w).
Proof.
  intros Hwf. destruct (run_wf evs w Hwf) as (w' & Hrun & _).
  exists w'. split; [done|].
  destruct (run_alerts evs w w' Hrun) as (? & ? & ? & _). done.
Qed.

(** X5. The loop never stalls while lives remain: after any session from
    the initial state, if [lives > 0] then an animation frame is
    requested. *)
Theorem loop_runs_while_lives_remain (evs : list Event) :
  ∃ w', run evs initialWorld = Some w'
    ∧ ((0 < lives w')%Z → frameRequested w' = true).
Proof.
  destruct (run_wf evs initialWorld initialWorld_wf) as (w' & Hrun & _).
  exists w'. split; [done|]. intros Hplay.
  destruct (run_alerts evs initialWorld w' Hrun) as (_ & _ & _ & Hframe).
  destruct Hframe as [Hon|Hover]; [by left|done|lia].
Qed.
End lives_sessions.

Lemma lives_never_rise_witness :
  ∃ w', run (H := mathDown) (rout ++ frames 2 6584) initialWorld = Some w'
    ∧ (lives w' <= lives initialWorld)%Z
    ∧ alerts initialWorld <= alerts w'
    ∧ ((0 < lives w')%Z → alerts w' = alerts initialWorld).
Proof.
  apply (lives_never_rise (H := mathDown) (rout ++ frames 2 6584)
           initialWorld).
  exact initialWorld_wf.
Defined.

(** ** Enemy movement *)

Lemma update_iter_progress (n : nat) (s : Q) (e : Enemy.t) :
  (Enemy.progress (Nat.iter n (Enemy.update s) e)
   == Enemy.progress e + inject_Z (Z.of_nat n) * s)%Q.
Proof.
  induction n as [|n IH].
  - simpl. ring.
  - rewrite Nat2Z.inj_succ. unfold Z.succ. rewrite inject_Z_plus.
    rewrite Nat.iter_succ. unfold Enemy.update at 1. cbn [Enemy.progress].
    rewrite IH. ring.
Qed.

Lemma reachedEnd_false (e : Enemy.t) :
  Enemy.reachedEnd e = false ↔ (Enemy.progress e < 200)%Q.
Proof.
  unfold Enemy.reachedEnd, Qgeb. split.
  - intros Hnot. apply Qnot_le_lt. intros Hle.
    apply Qle_bool_iff in Hle. congruence.
  - intros Hlt. destruct (Qle_bool 200 _) eqn:Hle; [|done].
    apply Qle_bool_iff in Hle. exfalso. by apply (Qlt_not_le _ _ Hlt).
Qed.

(** X6. An enemy moved for [n] ticks at a constant speed [s] has advanced by
    exactly [n * s], with [x = 4 * progress] and its health, [y] and
    resistances untouched; a spawned enemy has therefore reached the end of
    the track exactly when [n * s >= 200]: after 200 ticks at speed 1, 100
    at speed 2 and 400 at speed 0.5, and not one tick earlier. *)
Theorem enemy_crossing (n : nat) (s : Q) (e : Enemy.t) :
  (Enemy.progress (Nat.iter n (Enemy.update s) e)
   == Enemy.progress e + inject_Z (Z.of_nat n) * s)%Q
  ∧ (Enemy.x (Nat.iter (S n) (Enemy.update s) e)
     == 4 * Enemy.progress (Nat.iter (S n) (Enemy.update s) e))%Q
  ∧ Enemy.health (Nat.iter n (Enemy.update s) e) = Enemy.health e
  ∧ Enemy.y (Nat.iter n (Enemy.update s) e) = Enemy.y e
  ∧ Enemy.resistances (Nat.iter n (Enemy.update s) e) = Enemy.resistances e
  ∧ (Enemy.reachedEnd
       (Nat.iter n (Enemy.update s)
          (Enemy.constructor 0 200 300 spawnResistances)) = true
     ↔ (200 <= inject_Z (Z.of_nat n) * s)%Q)
  ∧ Enemy.reachedEnd
      (Nat.iter 199 (Enemy.update 1)
         (Enemy.constructor 0 200 300 spawnResistances)) = false
  ∧ Enemy.reachedEnd
      (Nat.iter 99 (Enemy.update 2)
         (Enemy.constructor 0 200 300 spawnResistances)) = false
  ∧ Enemy.reachedEnd
      (Nat.iter 399 (Enemy.update 0.5)
         (Enemy.constructor 0 200 300 spawnResistances)) = false.
Proof.
  split; [apply update_iter_progress|].
  split; [rewrite Nat.iter_succ; unfold Enemy.update at 1 3; simpl; ring|].
  split; [induction n; [done|by rewrite Nat.iter_succ]|].
  split; [induction n; [done|by rewrite Nat.iter_succ]|].
  split; [induction n; [done|by rewrite Nat.iter_succ]|]. split.
  - unfold Enemy.reachedEnd. rewrite Qgeb_ge, update_iter_progress.
    simpl. split; intros Hend; lra.
  - assert (∀ m s', Enemy.reachedEnd
              (Nat.iter m (Enemy.update s')
                 (Enemy.constructor 0 200 300 spawnResistances)) = false
            ↔ (inject_Z (Z.of_nat m) * s' < 200)%Q) as Hnot.
    { intros m s'. rewrite reachedEnd_false, update_iter_progress.
      simpl. split; intros; lra. }
    split_and!; apply Hnot; reflexivity.
Qed.

(** ** Impacts *)

Section hurts.
Context `{Math}.

Lemma onlyHurt_refl (e : Enemy.t) : onlyHurt e e.
Proof. by repeat split. Qed.

Lemma onlyHurt_trans (e1 e2 e3 : Enemy.t) :
  onlyHurt e1 e2 → onlyHurt e2 e3 → onlyHurt e1 e3.
Proof.
  intros (? & ? & ? & ? & ? & Hdead1) (? & ? & ? & ? & ? & Hdead2).
  split_and!; [congruence..|].
  intros Hdead. rewrite (Hdead1 Hdead) in *. by apply Hdead2.
Qed.

Lemma impact_onlyHurt (p : Projectile.t) (es : list Enemy.t) :
  length (impact p es) = length es
  ∧ ∀ i e, es !! i = Some e →
      ∃ e', impact p es !! i = Some e' ∧ onlyHurt e e'.
Proof.
  unfold impact. destruct (list_find _ es) as [[j hit]|] eqn:Hfind.
  - apply list_find_Some in Hfind as (Hj & Hhit & _).
    apply Is_true_true, hittable_spec in Hhit as [_ Halive].
    split; [apply length_insert|]. intros i e Hi.
    destruct (decide (i = j)) as [->|Hne].
    + simplify_eq. eexists. split.
      * apply list_lookup_insert_eq. by eapply lookup_lt_Some.
      * split_and!; [done..|]. intros Hdead. exfalso.
        by apply (Qlt_not_le _ _ Halive).
    + exists e. split; [by rewrite list_lookup_insert_ne|].
      apply onlyHurt_refl.
  - split; [done|]. intros i e Hi. exists e. split; [done|].
    apply onlyHurt_refl.
Qed.

Lemma updateProjectiles_onlyHurt (gameSpeed : Q) (ps : list Projectile.t) :
  ∀ es,
    length (updateProjectiles gameSpeed ps es).1 <= length ps
    ∧ length (updateProjectiles gameSpeed ps es).2 = length es
    ∧ ∀ i e, es !! i = Some e →
        ∃ e', (updateProjectiles gameSpeed ps es).2 !! i = Some e'
          ∧ onlyHurt e e'.
Proof.
  induction ps as [|p rest IH]; intros es.
  - simpl. split; [done|]. split; [done|]. intros i e Hi. exists e.
    split; [done|apply onlyHurt_refl].
  - simpl. destruct (Projectile.update gameSpeed p) as [p' still].
    destruct still.
    + specialize (IH es).
      destruct (updateProjectiles gameSpeed rest es) as [kept es'].
      simpl in *. destruct IH as (Hlen & Hlen' & Hith).
      split; [lia|]. done.
    + destruct (impact_onlyHurt p' es) as [Hlen1 Hith1].
      specialize (IH (impact p' es)).
      destruct (updateProjectiles gameSpeed rest (impact p' es))
        as [kept es'].
      simpl in *. destruct IH as (Hlen & Hlen' & Hith).
      split; [lia|]. split; [lia|]. intros i e Hi.
      destruct (Hith1 i e Hi) as (e1 & Hi1 & Hhurt1).
      destruct (Hith i e1 Hi1) as (e2 & Hi2 & Hhurt2).
      exists e2. split; [done|]. by eapply onlyHurt_trans.
Qed.

End hurts.

(** ** The shape of a tick *)

Section shapes.
Context `{Math}.

(** A tower either idles (nothing changes, no draw) or attempts a shot (its
    cooldown had elapsed, one draw, at most one projectile). *)
Lemma towerAttack_cases (now : Z) (rand : nat → Q) (dark : bool)
    (es : list Enemy.t) (tower tower' : Tower.t) (k k' : nat)
    (f : list Projectile.t) :
  towerAttack now rand dark es tower k = Some (tower', f, k') →
  (tower' = tower ∧ f = [] ∧ k' = k)
  ∨ ∃ ty target,
      towerTypes !! Tower.type tower = Some ty
      ∧ (attackSpeed ty < now - Tower.lastShot tower)%Z
      ∧ tower' = Tower.shoot now tower
      ∧ k' = S k
      ∧ (f = [] ∨ f = [shot ty dark tower target]).
Proof.
  unfold towerAttack, Tower.canShoot. intros Hrun.
  destruct (nearbyEnemy tower es) as [[[i target]|]|]; simplify_eq/=;
    [|by left].
  destruct (towerTypes !! Tower.type tower) as [ty|] eqn:Hty; simplify_eq/=.
  destruct (Z.ltb_spec (attackSpeed ty) (now - Tower.lastShot tower));
    simplify_eq/=; [|by left].
  right. exists ty, target. split_and!; [done..|].
  destruct (Qltb _ _); [by right|by left].
Qed.

Lemma towersAttack_shape (now : Z) (rand : nat → Q) (dark : bool)
    (es : list Enemy.t) (ts : list Tower.t) :
  ∀ k ts' fired k',
    towersAttack now rand dark es ts k = Some (ts', fired, k') →
    Forall2 aged ts ts'
    ∧ k <= k'
    ∧ length fired <= k' - k
    ∧ k' - k <= length ts
    ∧ Forall fromRegistry fired.
Proof.
  induction ts as [|tower rest IH]; intros k ts' fired k' Hrun.
  - simplify_eq/=. split_and!; [constructor|lia|lia|lia|constructor].
  - simpl in Hrun.
    destruct (towerAttack now rand dark es tower k) as [[[t1 f1] k1]|]
      eqn:Hone; simplify_eq/=.
    destruct (towersAttack now rand dark es rest k1) as [[[r1 f2] k2]|]
      eqn:Hloop; simplify_eq/=.
    destruct (IH _ _ _ _ Hloop) as (Haged & Hk & Hlen & Hdraws & Hreg).
    rewrite length_app, Forall_app.
    destruct (towerAttack_cases _ _ _ _ _ _ _ _ _ Hone)
      as [(-> & -> & ->)|(ty & target & Hty & Hcool & -> & -> & Hf)].
    + split_and!; [constructor; [by repeat split|done]|lia|simpl; lia|lia| |done].
      constructor.
    + pose proof (attackSpeed_pos _ _ Hty).
      split_and!; [constructor; [|done]|lia| |lia| |done].
      * split_and!; [done..|]. simpl. lia.
      * destruct Hf as [->| ->]; simpl; lia.
      * destruct Hf as [->| ->]; repeat constructor.
        by exists (Tower.type tower), ty.
Qed.

(** What a tick that does not throw has done. *)
Lemma gameLoop_inv (now : Z) (rand : nat → Q) (w w' : World) :
  gameLoop now rand w = Some w' →
  ∃ ts fired k',
    towersAttack now rand (isDarkMode w)
      (Enemy.update (gameSpeed w) <$> enemies w) (towers w) 0
    = Some (ts, fired, k')
    ∧ render (placingTower w) ts = Some ()
    ∧ towers w' = ts
    ∧ projectiles w'
      = (updateProjectiles (gameSpeed w) (projectiles w ++ fired)
           (Enemy.update (gameSpeed w) <$> enemies w)).1
    ∧ enemies w'
      = filter (λ e, Is_true (survives e))
          (updateProjectiles (gameSpeed w) (projectiles w ++ fired)
             (Enemy.update (gameSpeed w) <$> enemies w)).2
    ∧ gameSpeed w' = gameSpeed w
    ∧ placingTower w' = placingTower w
    ∧ isDarkMode w' = isDarkMode w.
Proof.
  unfold gameLoop, combat. intros Hrun.
  destruct (towersAttack _ _ _ _ _ _) as [[[ts fired] k']|]; simplify_eq/=.
  exists ts, fired, k'.
  destruct (updateProjectiles _ _ _) as [ps es]. simpl in *.
  destruct (render (placingTower w) ts) as [[]|]; simplify_eq/=. done.
Qed.

(** X8. A tick creates no tower and no enemy, and at most one projectile
    per tower: on a well-formed state the tick returns with the same number
    of towers, no more enemies than before, at most [towers] more
    projectiles than before, and the speed, the placement selection and the
    theme as they were. *)
Theorem tick_bounds (now : Z) (rand : nat → Q) (w : World) :
  wf w →
  ∃ w', gameLoop now rand w = Some w'
    ∧ length (towers w') = length (towers w)
    ∧ length (enemies w') <= length (enemies w)
    ∧ length (projectiles w') <= length (projectiles w) + length (towers w)
    ∧ gameSpeed w' = gameSpeed w
    ∧ placingTower w' = placingTower w
    ∧ isDarkMode w' = isDarkMode w.
Proof.
  intros Hwf. destruct (gameLoop_wf now rand w Hwf) as (w' & Hrun & _).
  exists w'. split; [done|].
  destruct (gameLoop_inv _ _ _ _ Hrun)
    as (ts & fired & k' & Hloop & _ & -> & -> & -> & Hrest).
  destruct (towersAttack_shape _ _ _ _ _ _ _ _ _ Hloop)
    as (Haged & _ & Hlen & Hdraws & _).
  destruct (updateProjectiles_onlyHurt (gameSpeed w) (projectiles w ++ fired)
              (Enemy.update (gameSpeed w) <$> enemies w))
    as (Hkept & Hsame & _).
  rewrite length_app in Hkept. rewrite length_fmap in Hsame.
  split; [symmetry; by eapply Forall2_length|].
  split; [|split; [lia|done]].
  etrans; [apply length_filter|]. lia.
Qed.


(** X10. A tick on an empty board changes nothing but the schedule: with no
    enemy and no projectile, whatever the clock and the draws, no tower
    shoots and gold, lives and towers stay as they are; while lives remain
    and a frame is requested the state after the tick is the state before
    it. *)
Theorem tick_on_empty_board (now : Z) (rand : nat → Q) (w : World) :
  wf w → enemies w = [] → projectiles w = [] →
  gameLoop now rand w
  = Some (mkWorld (gold w) (lives w) (gameSpeed w) (placingTower w)
            (isDarkMode w) (towers w) [] []
            (negb (lives w <=? 0)%Z)
            (if (lives w <=? 0)%Z then S (alerts w) else alerts w))
  ∧ ((0 < lives w)%Z → frameRequested w = true →
     gameLoop now rand w = Some w).
Proof.
  intros [Hts Hsel] Hes Hps.
  assert (∀ ts k, towersAttack now rand (isDarkMode w) [] ts k
                  = Some (ts, [], k)) as Hidle.
  { induction ts as [|tower rest IH]; intros k; [done|].
    simpl. by rewrite IH. }
  assert (gameLoop now rand w
          = Some (mkWorld (gold w) (lives w) (gameSpeed w) (placingTower w)
                    (isDarkMode w) (towers w) [] []
                    (negb (lives w <=? 0)%Z)
                    (if (lives w <=? 0)%Z then S (alerts w) else alerts w)))
    as Hrun.
  { unfold gameLoop, combat. rewrite Hes, Hps. simpl. rewrite Hidle. simpl.
    by rewrite (render_registered _ _ Hts Hsel). }
  split; [done|]. intros Hplay Hon. rewrite Hrun.
  destruct (Z.leb_spec (lives w) 0); [lia|]. simpl.
  destruct w; simpl in *. by subst.
Qed.
End shapes.

Lemma tick_bounds_witness :
  ∃ w', gameLoop (H := mathDown) 5000 (λ _, 0%Q) skirmish = Some w'
    ∧ length (towers w') = length (towers skirmish)
    ∧ length (enemies w') <= length (enemies skirmish)
    ∧ length (projectiles w')
      <= length (projectiles skirmish) + length (towers skirmish)
    ∧ gameSpeed w' = gameSpeed skirmish
    ∧ placingTower w' = placingTower skirmish
    ∧ isDarkMode w' = isDarkMode skirmish.
Proof.
  apply (tick_bounds (H := mathDown) 5000 (λ _, 0%Q) skirmish).
  exact skirmish_wf.
Defined.

Lemma tick_on_empty_board_witness :
  gameLoop (H := mathDown) 5000 (λ _, 0%Q) initialWorld
  = Some (mkWorld 200 20 1 None false [] [] [] true 0)
  ∧ ((0 < lives initialWorld)%Z → frameRequested initialWorld = true →
     gameLoop (H := mathDown) 5000 (λ _, 0%Q) initialWorld
     = Some initialWorld).
Proof.
  apply (tick_on_empty_board (H := mathDown) 5000 (λ _, 0%Q) initialWorld).
  - exact initialWorld_wf.
  - reflexivity.
  - reflexivity.
Defined.

(** ** Towers and enemies over a session *)

Lemma aged_refl (tower : Tower.t) : aged tower tower.
Proof. by repeat split. Qed.

Lemma aged_trans (t1 t2 t3 : Tower.t) : aged t1 t2 → aged t2 t3 → aged t1 t3.
Proof.
  intros (? & ? & ? & ?) (? & ? & ? & ?). split_and!; [congruence..|lia].
Qed.

Lemma enemies_commit (w w' : World) : enemies (commit w w') = enemies w'.
Proof. unfold commit. by destruct (sameDeps w w'). Qed.

Lemma projectiles_commit (w w' : World) :
  projectiles (commit w w') = projectiles w'.
Proof. unfold commit. by destruct (sameDeps w w'). Qed.

Lemma update_spawned (s : Q) (e : Enemy.t) :
  spawned e → spawned (Enemy.update s e).
Proof.
  intros (Hy & Hmax & Hres & Hx & Hhealth). unfold spawned. simpl.
  split_and!; [done..| |done]. reflexivity.
Qed.

Lemma takeDamage_spawned (p : Projectile.t) (e : Enemy.t) :
  fromRegistry p → spawned e →
  spawned (Enemy.takeDamage (Projectile.damage p) (Projectile.element p) e).
Proof.
  intros (k & ty & Hty & -> & ->) (Hy & Hmax & Hres & Hx & Hhealth).
  unfold spawned, Enemy.takeDamage, Enemy.resistance. simpl.
  split_and!; [done..|]. rewrite Hres.
  apply towerTypes_lookup in Hty as [[_ ->]|[[_ ->]|[_ ->]]]; simpl.
  - change (spawnResistances !! "fire") with (Some 0.2%Q). simpl. lra.
  - change (spawnResistances !! "ice") with (Some 0.0%Q). simpl. lra.
  - change (spawnResistances !! "electric") with (Some 0.1%Q). simpl. lra.
Qed.

Section boards.
Context `{Math}.

Lemma impact_spawned (p : Projectile.t) (es : list Enemy.t) :
  fromRegistry p → Forall spawned es → Forall spawned (impact p es).
Proof.
  intros Hp Hes. unfold impact.
  destruct (list_find _ es) as [[i hit]|] eqn:Hfind; [|done].
  apply list_find_Some in Hfind as (Hi & _).
  apply Forall_insert; [done|]. apply takeDamage_spawned; [done|].
  by apply (Forall_lookup_1 _ _ _ _ Hes Hi).
Qed.

Lemma updateProjectiles_board (gameSpeed : Q) (ps : list Projectile.t) :
  ∀ es, Forall fromRegistry ps → Forall spawned es →
    Forall fromRegistry (updateProjectiles gameSpeed ps es).1
    ∧ Forall spawned (updateProjectiles gameSpeed ps es).2.
Proof.
  induction ps as [|p rest IH]; intros es Hps Hes; [done|].
  apply Forall_cons in Hps as [Hp Hrest]. simpl.
  assert (fromRegistry (Projectile.update gameSpeed p).1) as Hp'.
  { unfold Projectile.update. by destruct (Qltb _ 5). }
  destruct (Projectile.update gameSpeed p) as [p' still]. simpl in Hp'.
  destruct still.
  - specialize (IH es Hrest Hes).
    destruct (updateProjectiles gameSpeed rest es) as [kept es'].
    simpl in *. destruct IH. split; [by constructor|done].
  - specialize (IH (impact p' es) Hrest (impact_spawned p' es Hp' Hes)).
    by destruct (updateProjectiles gameSpeed rest (impact p' es)).
Qed.

Lemma step_board (ev : Event) (w w' : World) :
  step ev w = Some w' → board w → board w'.
Proof.
  intros Hstep [Hes Hps].
  destruct ev as [now rand|x y| | |k| |s]; simpl in Hstep.
  - destruct (frameRequested w); [|by simplify_eq].
    destruct (gameLoop now rand w) as [w1|] eqn:Hloop; simplify_eq/=.
    unfold board. rewrite enemies_commit, projectiles_commit.
    destruct (gameLoop_inv _ _ _ _ Hloop)
      as (ts & fired & k' & Hatk & _ & _ & -> & -> & _).
    destruct (towersAttack_shape _ _ _ _ _ _ _ _ _ Hatk)
      as (_ & _ & _ & _ & Hfired).
    destruct (updateProjectiles_board (gameSpeed w) (projectiles w ++ fired)
                (Enemy.update (gameSpeed w) <$> enemies w))
      as [Hkept Hhurt].
    { by apply Forall_app. }
    { apply Forall_fmap. eapply Forall_impl; [exact Hes|].
      intros e [He _]. by apply update_spawned. }
    split; [|done]. apply Forall_forall.
    intros e [Hlive He]%list_elem_of_filter.
    split; [by apply (proj1 (Forall_forall _ _) Hhurt)|].
    apply Is_true_true in Hlive. unfold survives in Hlive.
    apply andb_true_iff in Hlive as [Halive Hnot].
    apply negb_true_iff in Hnot. split.
    + by apply Qltb_lt.
    + by apply reachedEnd_false.
  - unfold handleCanvasClick, addTower in Hstep. unfold board.
    destruct (truthy (placingTower w)) as [k|]; simplify_eq/=.
    + destruct (towerTypes !! k) as [ty|]; simplify_eq/=.
      rewrite enemies_commit, projectiles_commit.
      by destruct (_ <=? _)%Z.
    + by rewrite enemies_commit, projectiles_commit.
  - by simplify_eq.
  - simplify_eq. split; [|done]. simpl. apply Forall_app. split; [done|].
    repeat constructor; try done; unfold spawned; simpl.
    all: reflexivity.
  - destruct (towerTypes !! k) as [ty|]; [|by simplify_eq].
    destruct (_ <? _)%Z; simplify_eq; [done|].
    unfold board. by rewrite enemies_commit, projectiles_commit.
  - simplify_eq. unfold board.
    by rewrite enemies_commit, projectiles_commit.
  - simplify_eq. unfold board.
    by rewrite enemies_commit, projectiles_commit.
Qed.

Lemma run_board (evs : list Event) (w w' : World) :
  run evs w = Some w' → board w → board w'.
Proof.
  revert w. induction evs as [|ev evs IH]; intros w Hrun Hboard;
    simplify_eq/=; [done|].
  destruct (step ev w) as [w1|] eqn:Hstep; simplify_eq/=.
  eapply IH; [done|]. by eapply step_board.
Qed.

(** X11. Between events every enemy is in play and intact: after any
    session from the initial state each enemy of the array is alive
    ([0 < health <= 300 = maxHealth]), has not reached the end of the track
    ([progress < 200]), stands on the track line ([y = 200],
    [x = 4 * progress]) and has the resistances it was spawned with. *)
Theorem enemies_stay_in_play (evs : list Event) :
  ∃ w', run evs initialWorld = Some w'
    ∧ ∀ e, e ∈ enemies w' →
        (0 < Enemy.health e)%Q
        ∧ (Enemy.health e <= 300)%Q
        ∧ Enemy.maxHealth e = 300%Q
        ∧ (Enemy.progress e < 200)%Q
        ∧ Enemy.y e = 200%Q
        ∧ (Enemy.x e == 4 * Enemy.progress e)%Q
        ∧ Enemy.resistances e = spawnResistances.
Proof.
  destruct (run_wf evs initialWorld initialWorld_wf) as (w' & Hrun & _).
  exists w'. split; [done|].
  assert (board initialWorld) as Hinit by (split; constructor).
  destruct (run_board evs initialWorld w' Hrun Hinit) as [Hes _].
  intros e He.
  destruct (proj1 (Forall_forall _ _) Hes e He)
    as ((Hy & Hmax & Hres & Hx & Hhealth) & Halive & Hprogress).
  split_and!; [done..| |done]. rewrite Hx. ring.
Qed.

Lemma step_aged (ev : Event) (w w' : World) (i : nat) (tower : Tower.t) :
  step ev w = Some w' → towers w !! i = Some tower →
  ∃ tower', towers w' !! i = Some tower' ∧ aged tower tower'.
Proof.
  intros Hstep Hi.
  assert ((∀ now rand, ev = Frame now rand → frameRequested w = false)
          ∨ ∃ now rand, ev = Frame now rand ∧ frameRequested w = true)
    as [Hidle|(now & rand & -> & Hon)].
  { destruct ev as [now rand|x y| | |k| |s]; try by left.
    destruct (frameRequested w) eqn:Hon; [right; by exists now, rand|].
    by left. }
  - exists tower. split; [by eapply idle_step_lookup|apply aged_refl].
  - simpl in Hstep. rewrite Hon in Hstep.
    destruct (gameLoop now rand w) as [w1|] eqn:Hloop; simplify_eq/=.
    rewrite towers_commit.
    destruct (gameLoop_inv _ _ _ _ Hloop)
      as (ts & fired & k' & Hatk & _ & -> & _).
    destruct (towersAttack_shape _ _ _ _ _ _ _ _ _ Hatk) as (Haged & _).
    destruct (Forall2_lookup_l _ _ _ _ _ Haged Hi) as (tower' & Hi' & Hold).
    by exists tower'.
Qed.

(** X12. Towers are never removed, moved or retyped, and [lastShot] never
    goes back: over any session from a well-formed state the tower at an
    index stays at that index with the same position and type and a
    [lastShot] at least as large, so the tower array never shrinks. *)
Theorem towers_persist (evs : list Event) (w : World) (i : nat)
    (tower : Tower.t) :
  wf w → towers w !! i = Some tower →
  ∃ w' tower',
    run evs w = Some w'
    ∧ towers w' !! i = Some tower'
    ∧ Tower.x tower' = Tower.x tower
    ∧ Tower.y tower' = Tower.y tower
    ∧ Tower.type tower' = Tower.type tower
    ∧ (Tower.lastShot tower <= Tower.lastShot tower')%Z.
Proof.
  revert w tower. induction evs as [|ev evs IH]; intros w tower Hwf Hi.
  - exists w, tower. by repeat split.
  - destruct (step_wf ev w Hwf) as (w1 & Hstep & Hwf1).
    destruct (step_aged ev w w1 i tower Hstep Hi) as (t1 & Hi1 & Hold1).
    destruct (IH w1 t1 Hwf1 Hi1) as (w' & t' & Hrun & Hi' & Hold2).
    exists w', t'. simpl. rewrite Hstep. simpl. split; [done|].
    split; [done|]. by apply (aged_trans tower t1 t').
Qed.
End boards.

Lemma towers_persist_witness :
  ∃ w' tower',
    run (H := mathDown) (frames 2 5000) skirmish = Some w'
    ∧ towers w' !! 0 = Some tower'
    ∧ Tower.x tower' = Tower.x guard
    ∧ Tower.y tower' = Tower.y guard
    ∧ Tower.type tower' = Tower.type guard
    ∧ (Tower.lastShot guard <= Tower.lastShot tower')%Z.
Proof.
  apply (towers_persist (H := mathDown) (frames 2 5000) skirmish 0 guard).
  - exact skirmish_wf.
  - reflexivity.
Defined.

(** ** A projectile that never arrives *)



Section overshoot.
Context `{Math}.
Hypothesis hypot_ext :
  ∀ a b a' b', (a == a')%Q → (b == b')%Q → (hypot a b == hypot a' b')%Q.
Hypothesis hypot_sym : ∀ a b, (hypot (- a) (- b) == hypot a b)%Q.


End overshoot.


(** ** The cooldown of the older component *)

Section legacy_cooldown.
Context `{Math}.

Lemma spacedQ_cons (gap : Q) (start now : Z) (times : list Z) :
  (0 < gap)%Q → (gap < inject_Z (now - start))%Q → spacedQ gap now times →
  spacedQ gap start (now :: times).
Proof.
  intros Hgap Hnow [Hall Hpair].
  assert (∀ t, (gap < inject_Z (t - now))%Q → (gap < inject_Z (t - start))%Q)
    as Hlater.
  { intros t Ht. replace (t - start)%Z with ((t - now) + (now - start))%Z
      by lia. rewrite inject_Z_plus. lra. }
  split.
  - constructor; [done|]. eapply Forall_impl; [exact Hall|]. done.
  - intros [|a] [|b] t1 t2 Hlt Ha Hb; simplify_eq/=; [lia| |lia|].
    + by apply (Forall_lookup_1 _ _ _ _ Hall Hb).
    + apply (Hpair a b); [lia|done..].
Qed.

Lemma spacedQ_earlier (gap : Q) (start now : Z) (times : list Z) :
  (0 < gap)%Q → (gap < inject_Z (now - start))%Q → spacedQ gap now times →
  spacedQ gap start times.
Proof.
  intros Hgap Hnow Hspaced.
  destruct (spacedQ_cons gap start now times Hgap Hnow Hspaced)
    as [Hall Hpair].
  split; [by apply Forall_cons in Hall as [_ ?]|].
  intros a b t1 t2 Hlt Ha Hb. apply (Hpair (S a) (S b)); [lia|done..].
Qed.

Lemma legacy_towerAttack_cases (now : Z) (s draw : Q)
    (es : list Legacy.Enemy) (tower : Legacy.Tower) (ty : Legacy.TowerType) :
  Legacy.towerTypes !! Legacy.type tower = Some ty →
  ∃ tower' f,
    Legacy.towerAttack now s draw es tower = Some (tower', f)
    ∧ ((tower' = tower ∧ f = [])
       ∨ (Legacy.canShoot now s tower = true
          ∧ tower' = Legacy.shoot now tower)).
Proof.
  intros Hty. unfold Legacy.towerAttack.
  destruct es as [|e0 es0]; [exists tower, []; split; [done|by left]|].
  rewrite Hty. cbn [mbind option_bind].
  destruct (list_find (λ e, Is_true (Legacy.targetable ty tower e))
              (e0 :: es0)) as [[j target]|];
    [|exists tower, []; split; [done|by left]].
  destruct (Legacy.canShoot now s tower) eqn:Hcan;
    [|exists tower, []; split; [done|by left]].
  eexists _, _. split; [done|]. by right.
Qed.

Lemma legacy_firingTimes_spaced (s : Q) (ty : Legacy.TowerType)
    (ticks : list (Z * list Legacy.Enemy * Q)) :
  (0 < s)%Q →
  ∀ tower, Legacy.towerTypes !! Legacy.type tower = Some ty →
  ∃ times,
    Legacy.firingTimes tower
      ((λ tk, (tk.1.1, s, tk.1.2, tk.2)) <$> ticks) = Some times
    ∧ spacedQ (1000 / s) (Legacy.lastShot tower) times.
Proof.
  intros Hs.
  assert (0 < 1000 / s)%Q as Hgap.
  { apply Qlt_shift_div_l; [done|]. lra. }
  induction ticks as [|[[now es] draw] rest IH]; intros tower Hty.
  - exists []. split; [done|]. split; [constructor|].
    intros a b t1 t2 _ Ha. by rewrite lookup_nil in Ha.
  - rewrite fmap_cons. cbn [Legacy.firingTimes fst snd].
    destruct (legacy_towerAttack_cases now s draw (Legacy.update s <$> es)
                tower ty Hty)
      as (tower' & f & -> & [[-> ->]|[Hcan ->]]).
    + destruct (IH tower Hty) as (times & Hrun & Hspaced).
      cbn [mbind option_bind]. rewrite Hrun. by exists times.
    + apply Qltb_lt in Hcan.
      destruct (IH (Legacy.shoot now tower) Hty) as (times & Hrun & Hspaced).
      cbn [mbind option_bind]. rewrite Hrun. simpl in Hspaced.
      destruct f; eexists; (split; [done|]).
      * by apply (spacedQ_earlier _ _ now).
      * by apply spacedQ_cons.
Qed.

(** X14. In the older component, at a constant speed [s > 0], two
    projectiles of one tower are created more than [1000 / s] milliseconds
    apart, whatever the enemies and the draws: more than 2000 ms at speed
    0.5, 1000 ms at speed 1 and 500 ms at speed 2. *)
Theorem legacy_projectiles_apart (s : Q) (tower : Legacy.Tower)
    (ty : Legacy.TowerType) (ticks : list (Z * list Legacy.Enemy * Q)) :
  (0 < s)%Q →
  Legacy.towerTypes !! Legacy.type tower = Some ty →
  ∃ times,
    Legacy.firingTimes tower
      ((λ tk, (tk.1.1, s, tk.1.2, tk.2)) <$> ticks) = Some times
    ∧ ∀ a b t1 t2, a < b → times !! a = Some t1 → times !! b = Some t2 →
        (1000 / s < inject_Z (t2 - t1))%Q.
Proof.
  intros Hs Hty.
  destruct (legacy_firingTimes_spaced s ty ticks Hs tower Hty)
    as (times & Hrun & _ & Hpair).
  by exists times.
Qed.
End legacy_cooldown.

Lemma legacy_projectiles_apart_witness :
  ∃ times,
    Legacy.firingTimes (H := mathDown) (Legacy.mkTower 100 200 "basic" 0)
      ((λ tk, (tk.1.1, 2%Q, tk.1.2, tk.2))
         <$> [(501%Z, [Legacy.mkEnemy 40 200 100 100 10], 0%Q);
              (900%Z, [Legacy.mkEnemy 40 200 100 100 10], 0%Q);
              (1002%Z, [Legacy.mkEnemy 40 200 100 100 10], 0%Q)])
    = Some times
    ∧ ∀ a b t1 t2, a < b → times !! a = Some t1 → times !! b = Some t2 →
        (1000 / 2 < inject_Z (t2 - t1))%Q.
Proof.
  apply (legacy_projectiles_apart (H := mathDown) 2
           (Legacy.mkTower 100 200 "basic" 0)
           (Legacy.mkTowerType 50 10 100 "blue" 0.8)).
  - reflexivity.
  - reflexivity.
Defined.

(** ** Conservation *)

Lemma invested_app (ts ts' : list Tower.t) :
  invested (ts ++ ts') = (invested ts + invested ts')%Z.
Proof.
  induction ts as [|tower ts IH]; simpl; [done|]. rewrite IH. lia.
Qed.

Lemma invested_aged (ts ts' : list Tower.t) :
  Forall2 aged ts ts' → invested ts' = invested ts.
Proof.
  induction 1 as [|t t' ts ts' (_ & _ & Hty & _) _ IH]; [done|].
  simpl. by rewrite Hty, IH.
Qed.

Lemma takeDamage_tallied (p : Projectile.t) (e : Enemy.t) :
  fromRegistry p → tallied e →
  tallied (Enemy.takeDamage (Projectile.damage p) (Projectile.element p) e).
Proof.
  intros Hp [Hspawned (a & b & c & Hhealth)].
  split; [by apply takeDamage_spawned|].
  destruct Hp as (k & ty & Hty & -> & ->).
  destruct Hspawned as (_ & _ & Hres & _).
  unfold Enemy.takeDamage, Enemy.resistance. simpl. rewrite Hres.
  apply towerTypes_lookup in Hty as [[_ ->]|[[_ ->]|[_ ->]]]; simpl.
  - exists (S a), b, c. rewrite Nat2Z.inj_succ. unfold Z.succ.
    rewrite inject_Z_plus, Hhealth.
    change (spawnResistances !! "fire") with (Some 0.2%Q). simpl. ring.
  - exists a, (S b), c. rewrite Nat2Z.inj_succ. unfold Z.succ.
    rewrite inject_Z_plus, Hhealth.
    change (spawnResistances !! "ice") with (Some 0.0%Q). simpl. ring.
  - exists a, b, (S c). rewrite Nat2Z.inj_succ. unfold Z.succ.
    rewrite inject_Z_plus, Hhealth.
    change (spawnResistances !! "electric") with (Some 0.1%Q). simpl. ring.
Qed.

Section conservation.
Context `{Math}.

Lemma updateProjectiles_tallied (gameSpeed : Q) (ps : list Projectile.t) :
  ∀ es, Forall fromRegistry ps → Forall tallied es →
    Forall tallied (updateProjectiles gameSpeed ps es).2.
Proof.
  induction ps as [|p rest IH]; intros es Hps Hes; [done|].
  apply Forall_cons in Hps as [Hp Hrest]. simpl.
  assert (fromRegistry (Projectile.update gameSpeed p).1) as Hp'.
  { unfold Projectile.update. by destruct (Qltb _ 5). }
  destruct (Projectile.update gameSpeed p) as [p' still]. simpl in Hp'.
  destruct still.
  - specialize (IH es Hrest Hes).
    by destruct (updateProjectiles gameSpeed rest es).
  - assert (Forall tallied (impact p' es)) as Hhit.
    { unfold impact.
      destruct (list_find _ es) as [[i hit]|] eqn:Hfind; [|done].
      apply list_find_Some in Hfind as (Hi & _).
      apply Forall_insert; [done|]. apply takeDamage_tallied; [done|].
      by apply (Forall_lookup_1 _ _ _ _ Hes Hi). }
    specialize (IH (impact p' es) Hrest Hhit).
    by destruct (updateProjectiles gameSpeed rest (impact p' es)).
Qed.

Lemma step_tallied (ev : Event) (w w' : World) :
  step ev w = Some w' → board w →
  Forall tallied (enemies w) → Forall tallied (enemies w').
Proof.
  intros Hstep [_ Hps] Hes.
  destruct ev as [now rand|x y| | |k| |s]; simpl in Hstep.
  - destruct (frameRequested w); [|by simplify_eq].
    destruct (gameLoop now rand w) as [w1|] eqn:Hloop; simplify_eq/=.
    rewrite enemies_commit.
    destruct (gameLoop_inv _ _ _ _ Hloop)
      as (ts & fired & k' & Hatk & _ & _ & _ & -> & _).
    destruct (towersAttack_shape _ _ _ _ _ _ _ _ _ Hatk)
      as (_ & _ & _ & _ & Hfired).
    apply Forall_forall. intros e [_ He]%list_elem_of_filter.
    revert e He. apply Forall_forall.
    apply updateProjectiles_tallied; [by apply Forall_app|].
    apply Forall_fmap. eapply Forall_impl; [exact Hes|].
    intros e [He Htally]. split; [by apply update_spawned|done].
  - unfold handleCanvasClick, addTower in Hstep.
    destruct (truthy (placingTower w)) as [k|]; simplify_eq/=.
    + destruct (towerTypes !! k) as [ty|]; simplify_eq/=.
      rewrite enemies_commit. by destruct (_ <=? _)%Z.
    + by rewrite enemies_commit.
  - by simplify_eq.
  - simplify_eq. simpl. apply Forall_app. split; [done|].
    constructor; [|done]. split.
    + unfold spawned. simpl. split_and!; [reflexivity..|apply Qle_refl].
    + exists 0, 0, 0. reflexivity.
  - destruct (towerTypes !! k) as [ty|]; [|by simplify_eq].
    destruct (_ <? _)%Z; simplify_eq; [done|]. by rewrite enemies_commit.
  - simplify_eq. by rewrite enemies_commit.
  - simplify_eq. by rewrite enemies_commit.
Qed.

Lemma run_tallied (evs : list Event) (w w' : World) :
  run evs w = Some w' → board w →
  Forall tallied (enemies w) → Forall tallied (enemies w').
Proof.
  revert w. induction evs as [|ev evs IH]; intros w Hrun Hboard Hes;
    simplify_eq/=; [done|].
  destruct (step ev w) as [w1|] eqn:Hstep; simplify_eq/=.
  eapply IH; [done|by eapply step_board|by eapply step_tallied].
Qed.

(** X15. Health is always a whole number of hits below 300: after any
    session from the initial state the health of every enemy is
    [300 - 8 a - 30 b - 18 c] for some numbers [a], [b], [c] of hits by
    basic, sniper and splash towers (10, 30 and 20 damage reduced by the
    fire, ice and electric resistances 0.2, 0 and 0.1). *)
Theorem health_counts_hits (evs : list Event) :
  ∃ w', run evs initialWorld = Some w'
    ∧ ∀ e, e ∈ enemies w' →
        ∃ a b c : nat,
          (Enemy.health e
           == 300 - 8 * inject_Z (Z.of_nat a) - 30 * inject_Z (Z.of_nat b)
              - 18 * inject_Z (Z.of_nat c))%Q.
Proof.
  destruct (run_wf evs initialWorld initialWorld_wf) as (w' & Hrun & _).
  exists w'. split; [done|].
  assert (board initialWorld) as Hinit by (split; constructor).
  assert (Forall tallied (enemies initialWorld)) as Hnone by constructor.
  pose proof (run_tallied evs initialWorld w' Hrun Hinit Hnone) as Hes.
  intros e He. by destruct (proj1 (Forall_forall _ _) Hes e He) as [_ ?].
Qed.

Lemma gameLoop_economy (now : Z) (rand : nat → Q) (w w' : World) :
  gameLoop now rand w = Some w' →
  (gold w' + 10 * lives w' = gold w + 10 * lives w)%Z.
Proof.
  unfold gameLoop. intros Hrun.
  destruct (combat now rand w) as [[[ts es] ps]|]; simplify_eq/=.
  destruct (0 <? _)%Z; lia.
Qed.

Lemma step_conserved (ev : Event) (w w' : World) :
  step ev w = Some w' →
  (gold w' + 10 * lives w' + invested (towers w')
   = gold w + 10 * lives w + invested (towers w))%Z.
Proof.
  intros Hstep.
  destruct ev as [now rand|x y| | |k| |s]; simpl in Hstep.
  - destruct (frameRequested w); [|by simplify_eq].
    destruct (gameLoop now rand w) as [w1|] eqn:Hloop; simplify_eq/=.
    rewrite gold_commit, lives_commit, towers_commit.
    pose proof (gameLoop_economy _ _ _ _ Hloop) as Hsum.
    destruct (gameLoop_inv _ _ _ _ Hloop)
      as (ts & fired & k' & Hatk & _ & -> & _).
    destruct (towersAttack_shape _ _ _ _ _ _ _ _ _ Hatk) as (Haged & _).
    rewrite (invested_aged _ _ Haged). lia.
  - unfold handleCanvasClick, addTower in Hstep.
    destruct (truthy (placingTower w)) as [k|]; simplify_eq/=.
    + destruct (towerTypes !! k) as [ty|] eqn:Hty; simplify_eq/=.
      rewrite gold_commit, lives_commit, towers_commit.
      destruct (_ <=? _)%Z; simpl; [|done].
      rewrite invested_app. simpl. rewrite Hty. simpl. lia.
    + by rewrite gold_commit, lives_commit, towers_commit.
  - by simplify_eq.
  - by simplify_eq.
  - destruct (towerTypes !! k) as [ty|]; [|by simplify_eq].
    destruct (_ <? _)%Z; simplify_eq; [done|].
    by rewrite gold_commit, lives_commit, towers_commit.
  - simplify_eq. by rewrite gold_commit, lives_commit, towers_commit.
  - simplify_eq. by rewrite gold_commit, lives_commit, towers_commit.
Qed.

(** X16. The economy is closed: over any session from a well-formed state
    the sum of [gold], ten times [lives] and the cost of the towers on the
    board does not change; from the initial state it is 400, so
    [gold = 400 - 10 * lives - cost of the towers]. *)
Theorem economy_is_conserved (evs : list Event) (w : World) :
  wf w →
  ∃ w', run evs w = Some w'
    ∧ (gold w' + 10 * lives w' + invested (towers w')
       = gold w + 10 * lives w + invested (towers w))%Z
    ∧ (w = initialWorld →
       gold w' = (400 - 10 * lives w' - invested (towers w'))%Z).
Proof.
  intros Hwf. destruct (run_wf evs w Hwf) as (w' & Hrun & _).
  exists w'. split; [done|].
  assert (gold w' + 10 * lives w' + invested (towers w')
          = gold w + 10 * lives w + invested (towers w))%Z as Hsum.
  { clear Hwf. revert w Hrun.
    induction evs as [|ev evs IH]; intros w Hrun; simplify_eq/=; [done|].
    destruct (step ev w) as [w1|] eqn:Hstep; simplify_eq/=.
    rewrite (IH _ Hrun). by apply (step_conserved ev). }
  split; [done|]. intros ->. change (invested (towers initialWorld)) with 0%Z
    in Hsum. simpl in Hsum. lia.
Qed.
End conservation.

Lemma economy_is_conserved_witness :
  ∃ w', run (H := mathDown) (rout ++ frames 2 6584) initialWorld = Some w'
    ∧ (gold w' + 10 * lives w' + invested (towers w')
       = gold initialWorld + 10 * lives initialWorld
         + invested (towers initialWorld))%Z
    ∧ (initialWorld = initialWorld →
       gold w' = (400 - 10 * lives w' - invested (towers w'))%Z).
Proof.
  apply (economy_is_conserved (H := mathDown) (rout ++ frames 2 6584)
           initialWorld).
  exact initialWorld_wf.
Defined.
